(** * redutil/pubsub: events, the listener registry and the pubsub emitter

    A shallow embedding of the Go package [pubsub] (its event model and
    redis.go) together with the properties of the event model, of the
    listener registry ([recordList]) and of the commands the emitter puts on
    its [send] channel.

    Conventions.
    - A Go [string] is a sequence of bytes: Rocq's [string].
    - A Go [int] is modelled as [Z]; the target is taken to be a 64-bit
      platform ([strconv.IntSize = 64]), wrap-around is written out where the
      code can reach it.
    - A run-time panic is an explicit outcome, see [result].
    - The emitter is modelled sequentially: every public operation is one
      atomic step on the emitter state, and the [send] channel is the list
      of commands handed to it and not yet taken by the work loop. *)

From Stdlib Require Import ZArith Lia Ascii String.
From stdpp Require Import base list strings.

Local Open Scope string_scope.
Local Open Scope list_scope.
Local Open Scope Z_scope.

(** ** Outcome of a Go call that may panic *)

Inductive result (A : Type) : Type :=
| Returns (a : A)
| Panics.
Arguments Returns {A} a.
Arguments Panics {A}.

(** ** The part of Go's [strconv] used by the field accessors, in base 10

    [strconv] belongs to the Go standard library, not to the repository.
    [ParseUint] and [ParseInt] follow the library's loop, with its cutoff
    tests and its unsigned 64-bit arithmetic; [Itoa] is the canonical decimal
    rendering the library documents. *)

Inductive NumError : Type := ErrSyntax | ErrRange.

(** Go's [error] interface as returned by [strconv]: [None] is [nil]. *)
Definition error : Type := option NumError.

Definition IntSize : Z := 64.
Definition maxUint64 : Z := 2 ^ 64 - 1.

(** Conversions to [uint64] and [int64] (two's complement wrap-around). *)
Definition to_uint64 (z : Z) : Z := z mod 2 ^ 64.
Definition to_int64 (z : Z) : Z := (z + 2 ^ 63) mod 2 ^ 64 - 2 ^ 63.

Definition byte_val (c : ascii) : Z := Z.of_N (Ascii.N_of_ascii c).

(** ['0' <= c && c <= '9'] *)
Definition is_digit (c : ascii) : bool := (48 <=? byte_val c) && (byte_val c <=? 57).

(** [d = c - '0'] *)
Definition digit_val (c : ascii) : Z := byte_val c - 48.

(** The loop of [ParseUint] for [base = 10].  A byte that is not a decimal
    digit ends the loop with a syntax error (a letter yields [d >= base], any
    other byte takes the [default] branch). *)
Fixpoint parse_loop (maxVal n : Z) (s : string) : Z * error :=
  match s with
  | EmptyString => (n, None)
  | String c s' =>
      if negb (is_digit c) then (0, Some ErrSyntax)
      else if maxUint64 / 10 + 1 <=? n then (maxVal, Some ErrRange)
      else
        let n10 := n * 10 in
        let n1 := to_uint64 (n10 + digit_val c) in
        if (n1 <? n10) || (maxVal <? n1) then (maxVal, Some ErrRange)
        else parse_loop maxVal n1 s'
  end.

(** [strconv.ParseUint(s, 10, bitSize)] for [0 <= bitSize <= 64]. *)
Definition ParseUint (s : string) (bitSize : Z) : Z * error :=
  match s with
  | EmptyString => (0, Some ErrSyntax)
  | _ =>
      let bitSize := if bitSize =? 0 then IntSize else bitSize in
      let maxVal := to_uint64 (to_uint64 (2 ^ bitSize) - 1) in
      parse_loop maxVal 0 s
  end.

(** [strconv.ParseInt(s, 10, bitSize)] for [0 <= bitSize <= 64]. *)
Definition ParseInt (s : string) (bitSize : Z) : Z * error :=
  match s with
  | EmptyString => (0, Some ErrSyntax)
  | String c0 s1 =>
      let '(neg, s') :=
        if Ascii.eqb c0 "+" then (false, s1)
        else if Ascii.eqb c0 "-" then (true, s1)
        else (false, s) in
      let '(un, err) := ParseUint s' bitSize in
      match err with
      | Some ErrSyntax => (0, err)
      | _ =>
          let bitSize := if bitSize =? 0 then IntSize else bitSize in
          let cutoff := to_uint64 (2 ^ (bitSize - 1)) in
          if negb neg && (cutoff <=? un) then (to_int64 (cutoff - 1), Some ErrRange)
          else if neg && (cutoff <? un) then (to_int64 (- to_int64 cutoff), Some ErrRange)
          else
            let n := to_int64 un in
            (if neg then to_int64 (- n) else n, None)
      end
  end.

Definition digit_char (d : Z) : ascii := Ascii.ascii_of_N (Z.to_N (48 + d)).

(** Decimal digits of [u], least significant first, written in front of
    [acc]; [fuel] bounds the number of digits ([20] suffice for 64 bits). *)
Fixpoint format_loop (fuel : nat) (u : Z) (acc : string) : string :=
  match fuel with
  | O => acc
  | S fuel' =>
      let acc' := String (digit_char (u mod 10)) acc in
      if u <? 10 then acc' else format_loop fuel' (u / 10) acc'
  end.

Definition FormatUint (u : Z) : string := format_loop 20 u "".

(** [strconv.Itoa(i)], that is [FormatInt(int64(i), 10)]. *)
Definition Itoa (i : Z) : string :=
  if i <? 0 then String "-" (FormatUint (to_uint64 (- i))) else FormatUint i.

(** ** Event types, fields and events *)

Inductive EventType : Type := PlainEvent | PatternEvent.

(** The [default: panic] branches of the two methods below cannot be taken
    by the two declared constants. *)
Definition SubCommand (e : EventType) : string :=
  match e with
  | PlainEvent => "SUBSCRIBE"
  | PatternEvent => "PSUBSCRIBE"
  end.

Definition UnsubCommand (e : EventType) : string :=
  match e with
  | PlainEvent => "UNSUBSCRIBE"
  | PatternEvent => "PUNSUBSCRIBE"
  end.

Record Field : Type := mkField {
  valid : bool;
  alias : string;
  value : string
}.

(** [Field{valid: false}], what [Get] and [Find] return for a missing field. *)
Definition zeroField : Field := {| valid := false; alias := ""; value := "" |}.

Definition Field_As (f : Field) (a : string) : Field :=
  {| valid := valid f; value := value f; alias := a |}.

Definition Field_IsZero (f : Field) : bool := negb (valid f).

Definition Field_String (f : Field) : string := value f.

(** [[]byte(f.value)] *)
Definition Field_Bytes (f : Field) : list ascii := list_ascii_of_string (value f).

(** [int(x)] on the 64-bit target. *)
Definition to_int (z : Z) : Z := to_int64 z.

Definition Field_Int (f : Field) : Z * error :=
  let '(x, err) := ParseInt (value f) 32 in (to_int x, err).

Definition Field_Uint64 (f : Field) : Z * error := ParseUint (value f) 64.

Definition Field_Int64 (f : Field) : Z * error := ParseInt (value f) 64.

(** The constructors [String], [Int] and [Star] of the package. *)
Definition String_ (str : string) : Field :=
  {| valid := true; alias := ""; value := str |}.

Definition Int (x : Z) : Field :=
  {| valid := true; alias := ""; value := Itoa x |}.

Definition Star : Field := {| valid := true; alias := ""; value := "*" |}.

Record Event : Type := mkEvent {
  fields : list Field;
  kind : EventType
}.

Definition Event_Len (e : Event) : Z := Z.of_nat (length (fields e)).

(** [e.fields[i]] is a checked slice access: an index below zero or not
    below the length panics. *)
Definition index {A : Type} (l : list A) (i : Z) : result A :=
  if i <? 0 then Panics
  else match l !! Z.to_nat i with
       | Some x => Returns x
       | None => Panics
       end.

Definition Event_Get (e : Event) (i : Z) : result Field :=
  if Z.of_nat (length (fields e)) <=? i then Returns zeroField
  else index (fields e) i.

Fixpoint find_alias (fs : list Field) (a : string) : Field :=
  match fs with
  | [] => zeroField
  | field :: fs' => if String.eqb (alias field) a then field else find_alias fs' a
  end.

Definition Event_Find (e : Event) (a : string) : Field := find_alias (fields e) a.

(** [strings.Join(elems, sep)] *)
Definition Join (elems : list string) (sep : string) : string :=
  match elems with
  | [] => ""
  | s0 :: rest => fold_left (fun b s => b +:+ sep +:+ s) rest s0
  end.

Definition Event_Name (e : Event) : string := Join (map value (fields e)) "".

Definition Event_Type (e : Event) : EventType := kind e.

(** The dynamic type of the [interface{}] argument of [NewEvent]. *)
Inductive name_arg : Type :=
| ArgString (s : string)
| ArgBytes (b : list ascii)
| ArgField (f : Field)
| ArgOther.

Definition toFieldFromString (v : name_arg) : result Field :=
  match v with
  | ArgString t => Returns (String_ t)
  | ArgBytes t => Returns (String_ (string_of_list_ascii t))
  | ArgField t => Returns t
  | ArgOther => Panics
  end.

Definition NewEvent (name : name_arg) (fs : list Field) : result Event :=
  match toFieldFromString name with
  | Returns f => Returns {| fields := [f] ++ fs; kind := PlainEvent |}
  | Panics => Panics
  end.

Definition NewPatternEvent (name : name_arg) (fs : list Field) : result Event :=
  match toFieldFromString name with
  | Returns f => Returns {| fields := [f] ++ fs; kind := PatternEvent |}
  | Panics => Panics
  end.

(** ** redis.go: records and the listener registry *)

(** Modelled from the spec: the [Listener] interface is declared outside
    the files at hand; it is an opaque callback identity, and listener
    values are compared by identity (the [==] of [Remove]), not by
    behaviour.  A listener is modelled by that identity. *)
Definition Listener : Type := nat.

Record record : Type := mkRecord {
  rec_name : string;
  rec_ev : Event;
  rec_list : list Listener
}.

(** One call [l.Handle(ev, b)]. *)
Record call : Type := mkCall {
  call_listener : Listener;
  call_ev : Event;
  call_data : string
}.

(** [Emit] calls every attached listener, in order; the result is the
    sequence of calls made. *)
Definition Emit (r : record) (ev : Event) (b : string) : list call :=
  map (fun l => mkCall l ev b) (rec_list r).

(** [recordList] holds pointers to records in a slice: a record is updated
    in place, at its index. *)
Abbreviation recordList := (list record) (only parsing).

(** The loop of [find], started at index [i].  [None] stands for the pair
    [(-1, nil)]. *)
Fixpoint find_from (i : nat) (l : list record) (ev : string) : option (nat * record) :=
  match l with
  | [] => None
  | rec :: l' =>
      if String.eqb (rec_name rec) ev then Some (i, rec) else find_from (S i) l' ev
  end.

Definition find (r : recordList) (ev : string) : option (nat * record) :=
  find_from 0 r ev.

(** The zero value [&record{}]. *)
Definition zeroRecord : record :=
  {| rec_name := ""; rec_ev := {| fields := []; kind := PlainEvent |}; rec_list := [] |}.

Definition FindCopy (r : recordList) (ev : string) : record :=
  match find r ev with
  | None => zeroRecord
  | Some (_, rec) =>
      {| rec_ev := rec_ev rec; rec_name := rec_name rec; rec_list := rec_list rec |}
  end.

Definition set_list (rec : record) (l : list Listener) : record :=
  {| rec_name := rec_name rec; rec_ev := rec_ev rec; rec_list := l |}.

Definition Add (r : recordList) (ev : Event) (fn : Listener) : Z * recordList :=
  match find r (Event_Name ev) with
  | None =>
      (1, r ++ [ {| rec_ev := ev; rec_name := Event_Name ev; rec_list := [fn] |} ])
  | Some (idx, rec) =>
      let rec' := set_list rec (rec_list rec ++ [fn]) in
      (Z.of_nat (length (rec_list rec')), <[idx := rec']> r)
  end.

(** The "cut" of both loops of [Remove]:
    [l[i] = l[len(l)-1]; l[len(l)-1] = nil; l = l[:len(l)-1]].
    Both loops cut at an index they have just found in [l], so [i] is in
    range ([find_Some], [index_of_Some]). *)
Definition cut {A : Type} (i : nat) (l : list A) : list A :=
  match last l with
  | Some x => take (length l - 1) (<[i := x]> l)
  | None => l
  end.

(** Index of the first listener identical to [fn]. *)
Fixpoint index_of (i : nat) (l : list Listener) (fn : Listener) : option nat :=
  match l with
  | [] => None
  | x :: l' => if Nat.eqb x fn then Some i else index_of (S i) l' fn
  end.

(** The inner loop of [Remove]: the first listener identical to [fn] is cut
    out and the loop left; without one the list stays as it is. *)
Definition remove_listener (l : list Listener) (fn : Listener) : list Listener :=
  match index_of 0 l fn with
  | Some i => cut i l
  | None => l
  end.

Definition Remove (r : recordList) (ev : Event) (fn : Listener) : Z * recordList :=
  match find r (Event_Name ev) with
  | None => (0, r)
  | Some (idx, rec) =>
      let rec' := set_list rec (remove_listener (rec_list rec) fn) in
      let r' := <[idx := rec']> r in
      let l := Z.of_nat (length (rec_list rec')) in
      if 0 <? l then (l, r') else (0, cut idx r')
  end.

(** ** redis.go: the emitter *)

(** Modelled from the spec: the [command] struct is declared outside the
    files at hand; it is a verb and a sequence of arguments, here the
    strings redis.go puts into it. *)
Record command : Type := mkCommand {
  cmd_command : string;
  cmd_args : list string
}.

(** [subs []*recordList], indexed by [EventType]. *)
Record registries : Type := mkRegistries {
  plain : recordList;
  pattern : recordList
}.

Definition subs_get (s : registries) (k : EventType) : recordList :=
  match k with
  | PlainEvent => plain s
  | PatternEvent => pattern s
  end.

Definition subs_set (s : registries) (k : EventType) (r : recordList) : registries :=
  match k with
  | PlainEvent => {| plain := r; pattern := pattern s |}
  | PatternEvent => {| plain := plain s; pattern := r |}
  end.

(** The state of a [PubsubEmitter]: the registries, the commands handed to
    the [send] channel and not yet taken, the commands the work loop has
    passed on to the write pump, and the listener calls made so far. *)
Record PubsubEmitter : Type := mkEmitter {
  subs : registries;
  send : list command;
  written : list command;
  calls : list call
}.

Definition NewPubsubEmitter : PubsubEmitter :=
  {| subs := {| plain := []; pattern := [] |}; send := []; written := []; calls := [] |}.

Definition with_subs (p : PubsubEmitter) (s : registries) : PubsubEmitter :=
  {| subs := s; send := send p; written := written p; calls := calls p |}.

(** [p.send <- c] *)
Definition enqueue (p : PubsubEmitter) (c : command) : PubsubEmitter :=
  {| subs := subs p; send := send p ++ [c]; written := written p; calls := calls p |}.

Definition Subscribe (p : PubsubEmitter) (ev : Event) (l : Listener) : PubsubEmitter :=
  let '(count, r) := Add (subs_get (subs p) (Event_Type ev)) ev l in
  let p := with_subs p (subs_set (subs p) (Event_Type ev) r) in
  if count =? 1
  then enqueue p {| cmd_command := SubCommand (Event_Type ev); cmd_args := [Event_Name ev] |}
  else p.

Definition Unsubscribe (p : PubsubEmitter) (ev : Event) (l : Listener) : PubsubEmitter :=
  let '(count, r) := Remove (subs_get (subs p) (Event_Type ev)) ev l in
  let p := with_subs p (subs_set (subs p) (Event_Type ev) r) in
  if count =? 0
  then enqueue p {| cmd_command := UnsubCommand (Event_Type ev); cmd_args := [Event_Name ev] |}
  else p.

(** The commands of one registry, as sent by the inner loop of
    [resubscribe]. *)
Definition resubscribe_kind (k : EventType) (recs : recordList) : list command :=
  map (fun ev => {| cmd_command := SubCommand k; cmd_args := [rec_name ev] |}) recs.

(** [resubscribe] first drains [send], then sends one command per record,
    the registries in index order. *)
Definition resubscribe (p : PubsubEmitter) : PubsubEmitter :=
  let drained :=
    {| subs := subs p; send := []; written := written p; calls := calls p |} in
  fold_left
    (fun q k => fold_left enqueue (resubscribe_kind k (subs_get (subs p) k)) q)
    [PlainEvent; PatternEvent] drained.

(** A decoded message of the read pump ([redis.Message] and
    [redis.PMessage] of the client library). *)
Inductive message : Type :=
| Message (channel : string) (data : string)
| PMessage (pat : string) (channel : string) (data : string).

Definition handleEvent (p : PubsubEmitter) (data : message) : PubsubEmitter :=
  match data with
  | Message channel b =>
      let rec := FindCopy (subs_get (subs p) PlainEvent) channel in
      {| subs := subs p; send := send p; written := written p;
         calls := calls p ++ Emit rec (rec_ev rec) b |}
  | PMessage _ _ _ => p
  end.

(** The [case data := <-p.send] branch of the work loop. *)
Definition forward (p : PubsubEmitter) : PubsubEmitter :=
  match send p with
  | [] => p
  | c :: rest =>
      {| subs := subs p; send := rest; written := written p ++ [c]; calls := calls p |}
  end.

(** ** Runs: sequences of operations from the initial state *)

Inductive reg_op : Type :=
| OpAdd (ev : Event) (fn : Listener)
| OpRemove (ev : Event) (fn : Listener).

Definition reg_step (r : recordList) (o : reg_op) : recordList :=
  match o with
  | OpAdd ev fn => snd (Add r ev fn)
  | OpRemove ev fn => snd (Remove r ev fn)
  end.

(** The registry reached from the empty [recordList] by [ops]. *)
Definition reg_run (ops : list reg_op) : recordList := fold_left reg_step ops [].

Inductive op : Type :=
| OpSubscribe (ev : Event) (l : Listener)
| OpUnsubscribe (ev : Event) (l : Listener)
| OpResubscribe
| OpHandle (m : message)
| OpForward.

Definition step (p : PubsubEmitter) (o : op) : PubsubEmitter :=
  match o with
  | OpSubscribe ev l => Subscribe p ev l
  | OpUnsubscribe ev l => Unsubscribe p ev l
  | OpResubscribe => resubscribe p
  | OpHandle m => handleEvent p m
  | OpForward => forward p
  end.

(** The emitter state reached from [NewPubsubEmitter] by [ops]. *)
Definition run (ops : list op) : PubsubEmitter := fold_left step ops NewPubsubEmitter.

(** The listeners registered under name [n] in registry [r], in the order
    the record holds them; none when [r] has no record for [n]. *)
Definition listeners (r : recordList) (n : string) : list Listener :=
  match find r n with
  | Some (_, rec) => rec_list rec
  | None => []
  end.

(** Whether registry [r] holds a record for name [n]. *)
Definition holds (r : recordList) (n : string) : bool :=
  match find r n with
  | Some _ => true
  | None => false
  end.

(** ** Notions used to state the properties *)

Definition names (r : recordList) : list string := map rec_name r.

(** What the registry code maintains: record names are pairwise distinct
    and no record is left without a listener. *)
Definition reg_inv (r : recordList) : Prop :=
  NoDup (names r) ∧ Forall (fun rec => rec_list rec ≠ []) r.

Definition emitter_inv (p : PubsubEmitter) : Prop :=
  ∀ k, reg_inv (subs_get (subs p) k).

Global Instance EventType_eq_dec : EqDecision EventType.
Proof. solve_decision. Defined.

Global Instance command_eq_dec : EqDecision command.
Proof. solve_decision. Defined.


(** Decimal numerals, to state what the [strconv] functions compute:
    [all_digits s] holds when every byte of [s] is a decimal digit,
    [dec_val n s] is the value of the digits [s] read after the value [n],
    and a numeral is an optional sign followed by at least one digit. *)
Fixpoint all_digits (s : string) : bool :=
  match s with
  | EmptyString => true
  | String c s' => is_digit c && all_digits s'
  end.

Fixpoint dec_val (n : Z) (s : string) : Z :=
  match s with
  | EmptyString => n
  | String c s' => dec_val (n * 10 + digit_val c) s'
  end.

Definition unsigned_syntax (s : string) : bool :=
  match s with
  | EmptyString => false
  | _ => all_digits s
  end.

Definition split_sign (s : string) : bool * string :=
  match s with
  | EmptyString => (false, s)
  | String c0 s1 =>
      if Ascii.eqb c0 "+" then (false, s1)
      else if Ascii.eqb c0 "-" then (true, s1)
      else (false, s)
  end.

Definition signed_syntax (s : string) : bool := unsigned_syntax (snd (split_sign s)).

Definition signed_value (s : string) : Z :=
  let '(neg, d) := split_sign s in
  if neg then - dec_val 0 d else dec_val 0 d.

(** The listeners registered under name [n], read off the records of [r]
    one by one, without the registry's own lookup: the listener lists of
    all records named [n], in registry order. *)
Definition listeners_of (r : recordList) (n : string) : list Listener :=
  concat (map rec_list (filter (fun rec => rec_name rec = n) r)).

(** What every record of the registry of type [k] satisfies: it has a
    listener, it is named after its event, and its event is of type [k]. *)
Definition rec_ok (k : EventType) (rec : record) : Prop :=
  rec_list rec ≠ []
  ∧ rec_name rec = Event_Name (rec_ev rec)
  ∧ Event_Type (rec_ev rec) = k.

(** The four commands redis.go sends: a subscribe or unsubscribe verb with
    the name as the only argument. *)
Definition cmd_ok (c : command) : Prop :=
  ∃ k n, c = {| cmd_command := SubCommand k; cmd_args := [n] |}
         ∨ c = {| cmd_command := UnsubCommand k; cmd_args := [n] |}.



(* ================================================================= *)
(** * Properties *)

(** ** Strings *)

Lemma append_nil_r (s : string) : s +:+ "" = s.
Proof.
  induction s as [|c s IH]; [done|].
  change (String c (s +:+ "") = String c s). by rewrite IH.
Qed.

Lemma append_assoc (s1 s2 s3 : string) : (s1 +:+ s2) +:+ s3 = s1 +:+ s2 +:+ s3.
Proof.
  induction s1 as [|c s1 IH]; [done|].
  change (String c ((s1 +:+ s2) +:+ s3) = String c (s1 +:+ s2 +:+ s3)). by rewrite IH.
Qed.

Lemma Join_fold (rest : list string) (acc : string) :
  fold_left (fun b s => b +:+ "" +:+ s) rest acc = acc +:+ foldr String.append "" rest.
Proof.
  revert acc. induction rest as [|s rest IH]; intros acc; cbn [fold_left foldr].
  - by rewrite append_nil_r.
  - rewrite IH. change ("" +:+ s) with s. by rewrite append_assoc.
Qed.

Lemma Join_empty_sep (elems : list string) :
  Join elems "" = foldr String.append "" elems.
Proof. destruct elems as [|s0 rest]; [done | apply Join_fold]. Qed.

(** ** Events *)

(** C5: the name of an event built from the fields [f0; f1; ...; fn] is the
    concatenation of the fields' values in order and its length is [n + 1];
    [NewEvent] and [NewPatternEvent] build exactly such an event from the
    name field [f0] and the remaining fields. *)
Theorem Event_Name_Len (f0 : Field) (fs : list Field) (k : EventType) :
  let e := {| fields := f0 :: fs; kind := k |} in
  Event_Name e = foldr String.append "" (map value (f0 :: fs))
  ∧ Event_Len e = Z.of_nat (length fs) + 1
  ∧ NewEvent (ArgField f0) fs = Returns {| fields := f0 :: fs; kind := PlainEvent |}
  ∧ NewPatternEvent (ArgField f0) fs
    = Returns {| fields := f0 :: fs; kind := PatternEvent |}.
Proof.
  intros e. repeat split.
  - unfold Event_Name. apply Join_empty_sep.
  - unfold Event_Len, e. cbn [fields length]. lia.
Qed.

Lemma Event_Get_in_range (e : Event) (i : Z) :
  0 <= i < Event_Len e →
  ∃ f, fields e !! Z.to_nat i = Some f ∧ Event_Get e i = Returns f.
Proof.
  unfold Event_Len, Event_Get, index. intros Hi.
  destruct (Z.leb_spec (Z.of_nat (length (fields e))) i); [lia|].
  destruct (Z.ltb_spec i 0); [lia|].
  destruct (lookup_lt_is_Some_2 (fields e) (Z.to_nat i)) as [f Hf]; [lia|].
  exists f. by rewrite Hf.
Qed.

Lemma Event_Get_beyond (e : Event) (i : Z) :
  Event_Len e <= i → Event_Get e i = Returns zeroField.
Proof.
  unfold Event_Len, Event_Get. intros Hi.
  by destruct (Z.leb_spec (Z.of_nat (length (fields e))) i); [|lia].
Qed.

(** C6 (the code fails the claim): [Get] guards the upper end of the index
    range only; at every negative index the slice access panics instead of
    returning the absent field. *)
Theorem Event_Get_negative_panics (e : Event) (i : Z) :
  i < 0 → Event_Get e i = Panics.
Proof.
  unfold Event_Get, index. intros Hi.
  destruct (Z.leb_spec (Z.of_nat (length (fields e))) i); [lia|].
  by destruct (Z.ltb_spec i 0); [|lia].
Qed.

Lemma Event_Get_negative_panics_witness :
  -1 < 0 ∧ Event_Get {| fields := [String_ "foo"]; kind := PlainEvent |} (-1) = Panics.
Proof. split; [lia | apply Event_Get_negative_panics; lia]. Defined.

Lemma find_alias_spec (fs : list Field) (a : string) :
  (∃ pre post, fs = pre ++ find_alias fs a :: post
               ∧ alias (find_alias fs a) = a
               ∧ Forall (fun g => alias g ≠ a) pre)
  ∨ (find_alias fs a = zeroField ∧ Forall (fun g => alias g ≠ a) fs).
Proof.
  induction fs as [|f fs IH]; simpl.
  - right. by split.
  - destruct (String.eqb_spec (alias f) a) as [Heq|Hne].
    + left. exists [], fs. by repeat split.
    + destruct IH as [(pre & post & Hfs & Ha & Hpre)|[Hz Hall]].
      * left. exists (f :: pre), post. repeat split; [|done|by constructor].
        simpl. by rewrite <- Hfs.
      * right. split; [done | by constructor].
Qed.

(** C7, as the code has it: [Find] returns the first field whose alias
    equals the argument, and the absent field when there is none.  A field
    that was never given an alias carries the empty alias: it is never the
    match of a lookup with a non-empty argument (a lookup of the empty
    string does match it). *)
Theorem Event_Find_first_match (e : Event) (a : string) :
  ((∃ pre post, fields e = pre ++ Event_Find e a :: post
                ∧ alias (Event_Find e a) = a
                ∧ Forall (fun g => alias g ≠ a) pre)
   ∨ (Event_Find e a = zeroField
      ∧ Field_IsZero (Event_Find e a) = true
      ∧ Forall (fun g => alias g ≠ a) (fields e)))
  ∧ (a ≠ "" → ∀ f, alias f = "" → valid f = true → Event_Find e a ≠ f).
Proof.
  unfold Event_Find. split.
  - destruct (find_alias_spec (fields e) a) as [H|[Hz Hall]]; [by left|].
    right. by rewrite Hz.
  - intros Ha f Hf Hv Heq.
    destruct (find_alias_spec (fields e) a) as [(_ & _ & _ & Hal & _)|[Hz _]].
    + rewrite Heq in Hal. congruence.
    + rewrite Heq in Hz. rewrite Hz in Hv. done.
Qed.

Lemma Event_Find_first_match_witness :
  Event_Find {| fields := [String_ "foo"; Field_As (Int 1) "bar"]; kind := PlainEvent |}
             "bar" ≠ String_ "foo".
Proof.
  apply (Event_Find_first_match
           {| fields := [String_ "foo"; Field_As (Int 1) "bar"]; kind := PlainEvent |}
           "bar"); [discriminate | reflexivity | reflexivity].
Defined.

(** C7, as stated, fails: the event [NewEvent("foo")] has one field, never
    given an alias, and the lookup [Find("")] returns it. *)
Lemma Event_Find_empty_alias_matches :
  NewEvent (ArgString "foo") [] = Returns {| fields := [String_ "foo"]; kind := PlainEvent |}
  ∧ Event_Find {| fields := [String_ "foo"]; kind := PlainEvent |} "" = String_ "foo"
  ∧ Field_IsZero (Event_Find {| fields := [String_ "foo"]; kind := PlainEvent |} "") = false.
Proof. by repeat split. Qed.

(** ** Lists: the cut used by [Remove] *)

Section cut.
Context {A : Type}.
Implicit Types (l : list A) (i : nat) (x : A).

Lemma cut_last l1 x : cut (length l1) (l1 ++ [x]) = l1.
Proof.
  unfold cut. rewrite last_snoc, insert_app_r_alt, Nat.sub_diag by lia.
  cbn [insert list_insert]. rewrite length_app. cbn [length].
  replace (length l1 + 1 - 1)%nat with (length l1) by lia.
  apply take_app_length.
Qed.

Lemma cut_middle l1 x l2 y : cut (length l1) (l1 ++ x :: l2 ++ [y]) = l1 ++ y :: l2.
Proof.
  unfold cut. rewrite last_app_cons, last_cons, last_snoc.
  rewrite insert_app_r_alt, Nat.sub_diag by lia. cbn [insert list_insert].
  rewrite !length_app. cbn [length]. rewrite length_app. cbn [length].
  replace (length l1 + S (length l2 + 1) - 1)%nat
    with (length (l1 ++ y :: l2)) by (rewrite length_app; cbn [length]; lia).
  replace (l1 ++ y :: l2 ++ [y]) with ((l1 ++ y :: l2) ++ [y])
    by (by rewrite <- app_assoc).
  apply take_app_length.
Qed.

(** Every in-range cut is one of the two shapes above. *)
Lemma cut_cases l i x :
  l !! i = Some x →
  (l = take i l ++ [x] ∧ cut i l = take i l)
  ∨ (∃ l2 y, l = take i l ++ x :: l2 ++ [y] ∧ cut i l = take i l ++ y :: l2).
Proof.
  intros Hx. pose proof (lookup_lt_Some _ _ _ Hx) as Hi.
  assert (Hlen : length (take i l) = i) by (rewrite length_take; lia).
  pose proof (take_drop_middle l i x Hx) as Hl.
  destruct (drop (S i) l) as [|z l2] eqn:Hd using rev_ind.
  - left. split; [done|]. rewrite <- Hl at 1. rewrite <- Hlen at 1. apply cut_last.
  - right. exists l2, z. split; [done|].
    rewrite <- Hl at 1. rewrite <- Hlen at 1. apply cut_middle.
Qed.

Lemma cut_Permutation l i : (i < length l)%nat → cut i l ≡ₚ delete i l.
Proof.
  intros Hi. destruct (lookup_lt_is_Some_2 l i Hi) as [x Hx].
  assert (Hdel : delete i l = take i l ++ drop (S i) l) by apply delete_take_drop.
  destruct (cut_cases l i x Hx) as [[Hl Hc]|(l2 & y & Hl & Hc)].
  - rewrite Hc, Hdel.
    assert (drop (S i) l = []) as ->; [|by rewrite app_nil_r].
    apply drop_ge. rewrite Hl, length_app, length_take. cbn [length]. lia.
  - rewrite Hc, Hdel.
    assert (drop (S i) l = l2 ++ [y]) as ->.
    { rewrite Hl at 1. rewrite drop_app_ge by (rewrite length_take; lia).
      rewrite length_take. replace (S i - i `min` length l)%nat with 1%nat by lia.
      done. }
    apply Permutation_app_head, Permutation_cons_append.
Qed.


Lemma cut_elem_of l i x : (i < length l)%nat → x ∈ cut i l → x ∈ l.
Proof.
  intros Hi. rewrite (cut_Permutation l i Hi).
  intros Hx. eapply elem_of_sublist; [done | apply sublist_delete].
Qed.

Lemma cut_NoDup l i : (i < length l)%nat → NoDup l → NoDup (cut i l).
Proof.
  intros Hi Hnd. rewrite (cut_Permutation l i Hi).
  eapply sublist_NoDup; [done | apply sublist_delete].
Qed.

Lemma cut_not_elem_of l i x : NoDup l → l !! i = Some x → x ∉ cut i l.
Proof.
  intros Hnd Hx. rewrite (cut_Permutation l i (lookup_lt_Some _ _ _ Hx)).
  rewrite (delete_Permutation l i x Hx) in Hnd. by apply NoDup_cons in Hnd as [? _].
Qed.

Lemma cut_Forall (P : A → Prop) l i : (i < length l)%nat → Forall P l → Forall P (cut i l).
Proof.
  intros Hi. rewrite !Forall_forall. intros HP x Hx. eauto using cut_elem_of.
Qed.

Lemma cut_fmap {B : Type} (f : A → B) l i : f <$> cut i l = cut i (f <$> l).
Proof.
  unfold cut. rewrite fmap_last. destruct (last l) as [y|]; [|done]. cbn [fmap option_fmap option_map].
  by rewrite fmap_take, list_fmap_insert, length_fmap.
Qed.
End cut.

(** ** The registry: [find] *)

Lemma find_from_Some (i : nat) (l : list record) (n : string) (j : nat) (rec : record) :
  find_from i l n = Some (j, rec) →
  ∃ k, j = (i + k)%nat ∧ l !! k = Some rec ∧ rec_name rec = n
       ∧ n ∉ names (take k l).
Proof.
  revert i. induction l as [|r l IH]; intros i; cbn [find_from]; [done|].
  destruct (String.eqb_spec (rec_name r) n) as [Heq|Hne].
  - intros [= <- <-]. exists 0%nat. repeat split; [lia | done | apply not_elem_of_nil].
  - intros H. apply IH in H as (k & -> & Hk & Hn & Hpre).
    exists (S k). repeat split; [lia | done | done |].
    cbn [take names map] in *. rewrite not_elem_of_cons. by split.
Qed.

Lemma find_from_None (i : nat) (l : list record) (n : string) :
  find_from i l n = None ↔ n ∉ names l.
Proof.
  revert i. induction l as [|r l IH]; intros i; cbn [find_from names map].
  - split; [intros _; apply not_elem_of_nil | done].
  - rewrite not_elem_of_cons. destruct (String.eqb_spec (rec_name r) n) as [Heq|Hne].
    + split; [done | by intros [? _]].
    + rewrite IH. unfold names. by intuition.
Qed.

Lemma find_Some (r : recordList) (n : string) (j : nat) (rec : record) :
  find r n = Some (j, rec) →
  r !! j = Some rec ∧ rec_name rec = n ∧ n ∉ names (take j r).
Proof. intros H. by apply find_from_Some in H as (k & -> & ? & ? & ?). Qed.

Lemma find_None (r : recordList) (n : string) : find r n = None ↔ n ∉ names r.
Proof. apply find_from_None. Qed.

Lemma find_first (i : nat) (l : list record) (k : nat) (rec : record) :
  l !! k = Some rec → rec_name rec ∉ names (take k l) →
  find_from i l (rec_name rec) = Some ((i + k)%nat, rec).
Proof.
  revert i k. induction l as [|r l IH]; intros i k; [done|].
  destruct k as [|k]; cbn [lookup list_lookup find_from take names map].
  - intros [= ->] _. rewrite String.eqb_refl. do 2 f_equal. lia.
  - intros Hk Hpre. apply not_elem_of_cons in Hpre as [Hne Hpre].
    destruct (String.eqb_spec (rec_name r) (rec_name rec)) as [Heq|_]; [done|].
    rewrite (IH (S i) k Hk Hpre). do 2 f_equal. lia.
Qed.

Lemma holds_true (r : recordList) (n : string) : holds r n = true ↔ n ∈ names r.
Proof.
  unfold holds. destruct (find r n) as [[j rec]|] eqn:Hf.
  - split; [|done]. intros _. apply find_Some in Hf as (Hj & <- & _).
    unfold names. apply list_elem_of_fmap. exists rec. split; [done|].
    by eapply list_elem_of_lookup_2.
  - apply find_None in Hf. by split.
Qed.

Lemma holds_false (r : recordList) (n : string) : holds r n = false ↔ find r n = None.
Proof. unfold holds. by destruct (find r n). Qed.

(** Replacing the found record by one of the same name keeps it found. *)
Lemma find_insert_same (r : recordList) (n : string) (idx : nat) (rec rec' : record) :
  find r n = Some (idx, rec) → rec_name rec' = rec_name rec →
  find (<[idx := rec']> r) n = Some (idx, rec').
Proof.
  intros Hf Hname. apply find_Some in Hf as (Hidx & Hn & Hpre).
  pose proof (lookup_lt_Some _ _ _ Hidx) as Hlt.
  rewrite <- Hn, <- Hname. unfold find. rewrite (find_first 0 _ idx rec').
  - done.
  - by apply list_lookup_insert_eq.
  - rewrite take_insert_ge by lia. congruence.
Qed.

Lemma names_insert_same (r : recordList) (idx : nat) (rec rec' : record) :
  r !! idx = Some rec → rec_name rec' = rec_name rec →
  names (<[idx := rec']> r) = names r.
Proof.
  intros Hidx Hname. unfold names. rewrite list_fmap_insert.
  apply list_insert_id. rewrite list_lookup_fmap, Hidx. cbn. by rewrite Hname.
Qed.

Lemma find_app_new (r : recordList) (rec : record) :
  find r (rec_name rec) = None →
  find (r ++ [rec]) (rec_name rec) = Some (length r, rec).
Proof.
  intros Hf. apply find_None in Hf. unfold find.
  rewrite (find_first 0 _ (length r) rec).
  - done.
  - by rewrite lookup_app_r, Nat.sub_diag.
  - by rewrite take_app_length.
Qed.

(** ** The registry: [Add] and [Remove] *)

Lemma set_list_same (rec : record) : set_list rec (rec_list rec) = rec.
Proof. by destruct rec. Qed.

Lemma index_of_Some (i : nat) (l : list Listener) (fn : Listener) (j : nat) :
  index_of i l fn = Some j → ∃ k, j = (i + k)%nat ∧ l !! k = Some fn.
Proof.
  revert i. induction l as [|x l IH]; intros i; cbn [index_of]; [done|].
  destruct (Nat.eqb_spec x fn) as [->|_].
  - intros [= <-]. exists 0%nat. split; [lia | done].
  - intros H. apply IH in H as (k & -> & Hk). exists (S k). split; [lia | done].
Qed.

Lemma index_of_None (i : nat) (l : list Listener) (fn : Listener) :
  index_of i l fn = None ↔ fn ∉ l.
Proof.
  revert i. induction l as [|x l IH]; intros i; cbn [index_of].
  - split; [intros _; apply not_elem_of_nil | done].
  - rewrite not_elem_of_cons. destruct (Nat.eqb_spec x fn) as [->|Hne].
    + split; [done | by intros [? _]].
    + rewrite IH. by intuition.
Qed.

Lemma remove_listener_elem (l : list Listener) (fn : Listener) :
  fn ∈ l → l ≡ₚ fn :: remove_listener l fn.
Proof.
  intros Hin. unfold remove_listener.
  destruct (index_of 0 l fn) as [i|] eqn:Hi.
  - apply index_of_Some in Hi as (k & -> & Hk). cbn [Nat.add].
    rewrite (cut_Permutation l k (lookup_lt_Some _ _ _ Hk)).
    by apply delete_Permutation.
  - by apply index_of_None in Hi.
Qed.

Lemma remove_listener_not_elem (l : list Listener) (fn : Listener) :
  fn ∉ l → remove_listener l fn = l.
Proof.
  intros Hin. unfold remove_listener. apply index_of_None with (i := 0%nat) in Hin.
  by rewrite Hin.
Qed.


Lemma Add_new (r : recordList) (ev : Event) (fn : Listener) :
  find r (Event_Name ev) = None →
  Add r ev fn
  = (1, r ++ [ {| rec_name := Event_Name ev; rec_ev := ev; rec_list := [fn] |} ]).
Proof. intros Hf. unfold Add. by rewrite Hf. Qed.

Lemma Add_existing (r : recordList) (ev : Event) (fn : Listener) (idx : nat) (rec : record) :
  find r (Event_Name ev) = Some (idx, rec) →
  Add r ev fn
  = (Z.of_nat (length (rec_list rec)) + 1,
     <[idx := set_list rec (rec_list rec ++ [fn])]> r).
Proof.
  intros Hf. unfold Add. rewrite Hf. cbn [set_list rec_list].
  rewrite length_app. cbn [length]. f_equal. lia.
Qed.

Lemma Add_listeners (r : recordList) (ev : Event) (fn : Listener) :
  listeners (snd (Add r ev fn)) (Event_Name ev) = listeners r (Event_Name ev) ++ [fn].
Proof.
  unfold listeners at 2. destruct (find r (Event_Name ev)) as [[idx rec]|] eqn:Hf.
  - rewrite (Add_existing _ _ _ _ _ Hf). cbn [snd]. unfold listeners.
    by rewrite (find_insert_same _ _ _ _ _ Hf).
  - rewrite (Add_new _ _ _ Hf). cbn [snd]. unfold listeners.
    pose proof (find_app_new r
      {| rec_name := Event_Name ev; rec_ev := ev; rec_list := [fn] |} Hf) as Hnew.
    cbn [rec_name] in Hnew. by rewrite Hnew.
Qed.

Lemma Add_count (r : recordList) (ev : Event) (fn : Listener) :
  fst (Add r ev fn) = Z.of_nat (length (listeners r (Event_Name ev))) + 1.
Proof.
  unfold listeners. destruct (find r (Event_Name ev)) as [[idx rec]|] eqn:Hf.
  - by rewrite (Add_existing _ _ _ _ _ Hf).
  - by rewrite (Add_new _ _ _ Hf).
Qed.

Lemma Add_inv (r : recordList) (ev : Event) (fn : Listener) :
  reg_inv r → reg_inv (snd (Add r ev fn)).
Proof.
  intros [Hnd Hne]. destruct (find r (Event_Name ev)) as [[idx rec]|] eqn:Hf.
  - rewrite (Add_existing _ _ _ _ _ Hf). cbn [snd].
    pose proof (find_Some _ _ _ _ Hf) as (Hidx & _ & _). split.
    + by rewrite (names_insert_same _ _ rec).
    + apply Forall_insert; [done|]. cbn [set_list rec_list]. by destruct (rec_list rec).
  - rewrite (Add_new _ _ _ Hf). cbn [snd]. apply find_None in Hf. split.
    + unfold names in *. rewrite fmap_app. apply NoDup_app. repeat split; [done | |].
      * intros x Hx. cbn. rewrite list_elem_of_singleton. by intros ->.
      * apply NoDup_singleton.
    + apply Forall_app. split; [done|]. by repeat constructor.
Qed.

Lemma Remove_absent (r : recordList) (ev : Event) (fn : Listener) :
  find r (Event_Name ev) = None → Remove r ev fn = (0, r).
Proof. intros Hf. unfold Remove. by rewrite Hf. Qed.

Lemma delete_insert_same {A : Type} (l : list A) (i : nat) (x : A) :
  delete i (<[i := x]> l) = delete i l.
Proof.
  rewrite !delete_take_drop, take_insert_ge, drop_insert_lt by lia. done.
Qed.

(** What [Remove] leaves for the name it was called with. *)
Lemma Remove_found (r : recordList) (ev : Event) (fn : Listener) (idx : nat) (rec : record) :
  NoDup (names r) → find r (Event_Name ev) = Some (idx, rec) →
  listeners (snd (Remove r ev fn)) (Event_Name ev) = remove_listener (rec_list rec) fn
  ∧ fst (Remove r ev fn) = Z.of_nat (length (remove_listener (rec_list rec) fn))
  ∧ (remove_listener (rec_list rec) fn = [] →
     holds (snd (Remove r ev fn)) (Event_Name ev) = false
     ∧ snd (Remove r ev fn) ≡ₚ delete idx r).
Proof.
  intros Hnd Hf. pose proof (find_Some _ _ _ _ Hf) as (Hidx & Hn & _).
  pose proof (lookup_lt_Some _ _ _ Hidx) as Hlt.
  unfold Remove. rewrite Hf. cbn [set_list rec_list].
  set (L' := remove_listener (rec_list rec) fn).
  set (rec' := set_list rec L').
  destruct (Z.ltb_spec 0 (Z.of_nat (length L'))) as [Hpos|Hzero]; cbn [fst snd].
  - split; [|split].
    + unfold listeners. by rewrite (find_insert_same _ _ _ _ rec' Hf).
    + done.
    + intros HL. rewrite HL in Hpos. cbn in Hpos. lia.
  - assert (HL : L' = []) by (destruct L'; [done | cbn [length] in Hzero; lia]).
    assert (Hgone : find (cut idx (<[idx := rec']> r)) (Event_Name ev) = None).
    { apply find_None. unfold names. rewrite cut_fmap.
      fold (names (<[idx := rec']> r)). rewrite (names_insert_same _ _ rec) by done.
      rewrite <- Hn. apply cut_not_elem_of; [done|].
      unfold names. by rewrite list_lookup_fmap, Hidx. }
    split; [|split; [|intros _; split]].
    + unfold listeners. by rewrite Hgone.
    + by rewrite HL.
    + by apply holds_false.
    + rewrite cut_Permutation by (by rewrite length_insert).
      by rewrite delete_insert_same.
Qed.

Lemma Remove_inv (r : recordList) (ev : Event) (fn : Listener) :
  reg_inv r → reg_inv (snd (Remove r ev fn)).
Proof.
  intros [Hnd Hne]. destruct (find r (Event_Name ev)) as [[idx rec]|] eqn:Hf.
  - pose proof (find_Some _ _ _ _ Hf) as (Hidx & Hn & _).
    destruct (Remove_found r ev fn idx rec Hnd Hf) as (_ & _ & Hnil).
    destruct (remove_listener (rec_list rec) fn) as [|x L'] eqn:HL.
    + destruct (Hnil eq_refl) as [_ Hperm]. unfold reg_inv, names.
      rewrite Hperm. split.
      * eapply sublist_NoDup; [exact Hnd|]. apply fmap_sublist, sublist_delete.
      * rewrite Forall_forall in *. intros y Hy. apply Hne.
        eapply elem_of_sublist; [exact Hy | apply sublist_delete].
    + clear Hnil. unfold Remove. rewrite Hf, HL. cbn [set_list rec_list length].
      destruct (Z.ltb_spec 0 (Z.of_nat (S (length L')))) as [_|?]; [|lia].
      cbn [snd]. split.
      * by rewrite (names_insert_same _ _ rec).
      * by apply Forall_insert.
  - by rewrite (Remove_absent _ _ _ Hf).
Qed.

Lemma reg_run_inv (ops : list reg_op) : reg_inv (reg_run ops).
Proof.
  unfold reg_run.
  assert (Hempty : reg_inv []) by (split; [apply NoDup_nil_2 | constructor]).
  revert Hempty. generalize (@nil record).
  induction ops as [|o ops IH]; intros r Hr; cbn [fold_left]; [done|].
  apply IH. destruct o as [ev fn|ev fn]; cbn [reg_step].
  - by apply Add_inv.
  - by apply Remove_inv.
Qed.

(** C4: in every registry reached from the empty [recordList] by a
    sequence of [Add] and [Remove] calls, no two records share a name. *)
Theorem recordList_names_unique (ops : list reg_op) :
  NoDup (map rec_name (reg_run ops)).
Proof. apply (reg_run_inv ops). Qed.

(** [Add] and [Remove] on one name, in terms of the registry's lookup. *)
Lemma Add_Remove_by_find (r : recordList) (ev : Event) (fn fn' : Listener) :
  reg_inv r →
  (holds r (Event_Name ev) = false →
     Add r ev fn
     = (1, r ++ [ {| rec_name := Event_Name ev; rec_ev := ev; rec_list := [fn] |} ])
     ∧ Remove r ev fn = (0, r))
  ∧ fst (Add r ev fn) = Z.of_nat (length (listeners r (Event_Name ev))) + 1
  ∧ fst (Add (snd (Add r ev fn)) ev fn') = fst (Add r ev fn) + 1
  ∧ (listeners r (Event_Name ev) = [fn] →
     let r' := snd (Remove r ev fn) in
     fst (Remove r ev fn) = 0
     ∧ holds r' (Event_Name ev) = false
     ∧ Add r' ev fn'
       = (1, r' ++ [ {| rec_name := Event_Name ev; rec_ev := ev; rec_list := [fn'] |} ])).
Proof.
  intros [Hnd Hne]. split; [|split; [|split]].
  - intros Hh. apply holds_false in Hh. by rewrite Add_new, Remove_absent.
  - apply Add_count.
  - rewrite !Add_count, Add_listeners, length_app. cbn [length]. lia.
  - intros HL r'. unfold listeners in HL.
    destruct (find r (Event_Name ev)) as [[idx rec]|] eqn:Hf; [|done].
    destruct (Remove_found r ev fn idx rec Hnd Hf) as (_ & Hcount & Hnil).
    assert (Hrm : remove_listener (rec_list rec) fn = []).
    { rewrite HL. unfold remove_listener. cbn [index_of]. by rewrite Nat.eqb_refl. }
    destruct (Hnil Hrm) as [Hgone _]. rewrite Hrm in Hcount.
    split; [done | split; [done|]].
    apply Add_new. by apply holds_false.
Qed.

(** ** The emitter *)

Lemma subs_get_set_same (s : registries) (k : EventType) (r : recordList) :
  subs_get (subs_set s k r) k = r.
Proof. by destruct k. Qed.

Lemma subs_get_set_other (s : registries) (k k' : EventType) (r : recordList) :
  k ≠ k' → subs_get (subs_set s k r) k' = subs_get s k'.
Proof. by destruct k, k'. Qed.


Lemma Subscribe_subs (p : PubsubEmitter) (ev : Event) (l : Listener) :
  subs (Subscribe p ev l)
  = subs_set (subs p) (Event_Type ev) (snd (Add (subs_get (subs p) (Event_Type ev)) ev l)).
Proof.
  unfold Subscribe. destruct (Add _ ev l) as [count r]. by destruct (count =? 1).
Qed.

Lemma Subscribe_send (p : PubsubEmitter) (ev : Event) (l : Listener) :
  send (Subscribe p ev l)
  = send p ++
    (if fst (Add (subs_get (subs p) (Event_Type ev)) ev l) =? 1
     then [ {| cmd_command := SubCommand (Event_Type ev); cmd_args := [Event_Name ev] |} ]
     else []).
Proof.
  unfold Subscribe. destruct (Add _ ev l) as [count r]. cbn [fst].
  destruct (count =? 1); cbn [send enqueue with_subs]; [done | by rewrite app_nil_r].
Qed.

Lemma Unsubscribe_subs (p : PubsubEmitter) (ev : Event) (l : Listener) :
  subs (Unsubscribe p ev l)
  = subs_set (subs p) (Event_Type ev)
             (snd (Remove (subs_get (subs p) (Event_Type ev)) ev l)).
Proof.
  unfold Unsubscribe. destruct (Remove _ ev l) as [count r]. by destruct (count =? 0).
Qed.

Lemma Unsubscribe_send (p : PubsubEmitter) (ev : Event) (l : Listener) :
  send (Unsubscribe p ev l)
  = send p ++
    (if fst (Remove (subs_get (subs p) (Event_Type ev)) ev l) =? 0
     then [ {| cmd_command := UnsubCommand (Event_Type ev); cmd_args := [Event_Name ev] |} ]
     else []).
Proof.
  unfold Unsubscribe. destruct (Remove _ ev l) as [count r]. cbn [fst].
  destruct (count =? 0); cbn [send enqueue with_subs]; [done | by rewrite app_nil_r].
Qed.

Lemma enqueue_all (cs : list command) (q : PubsubEmitter) :
  fold_left enqueue cs q
  = {| subs := subs q; send := send q ++ cs; written := written q; calls := calls q |}.
Proof.
  revert q. induction cs as [|c cs IH]; intros q; cbn [fold_left].
  - rewrite app_nil_r. by destruct q.
  - rewrite IH. cbn [enqueue subs send written calls]. by rewrite <- app_assoc.
Qed.

Lemma resubscribe_eq (p : PubsubEmitter) :
  resubscribe p
  = {| subs := subs p;
       send := resubscribe_kind PlainEvent (plain (subs p))
               ++ resubscribe_kind PatternEvent (pattern (subs p));
       written := written p; calls := calls p |}.
Proof.
  unfold resubscribe. cbn [fold_left]. rewrite !enqueue_all.
  cbn [subs send written calls subs_get]. done.
Qed.

Lemma step_subs_inv (p : PubsubEmitter) (o : op) :
  emitter_inv p → emitter_inv (step p o).
Proof.
  intros Hp k. destruct o as [ev l|ev l| |m|]; cbn [step].
  - rewrite Subscribe_subs. destruct (decide (Event_Type ev = k)) as [<-|Hne].
    + rewrite subs_get_set_same. apply Add_inv, Hp.
    + rewrite subs_get_set_other by done. apply Hp.
  - rewrite Unsubscribe_subs. destruct (decide (Event_Type ev = k)) as [<-|Hne].
    + rewrite subs_get_set_same. apply Remove_inv, Hp.
    + rewrite subs_get_set_other by done. apply Hp.
  - rewrite resubscribe_eq. apply Hp.
  - destruct m; apply Hp.
  - unfold forward. destruct (send p); apply Hp.
Qed.

Lemma run_inv (ops : list op) : emitter_inv (run ops).
Proof.
  unfold run.
  assert (H0 : emitter_inv NewPubsubEmitter).
  { intros []; (split; [apply NoDup_nil_2 | constructor]). }
  revert H0. generalize NewPubsubEmitter.
  induction ops as [|o ops IH]; intros p Hp; cbn [fold_left]; [done|].
  by apply IH, step_subs_inv.
Qed.

Lemma Remove_listeners (r : recordList) (ev : Event) (fn : Listener) :
  NoDup (names r) →
  listeners (snd (Remove r ev fn)) (Event_Name ev)
  = remove_listener (listeners r (Event_Name ev)) fn.
Proof.
  intros Hnd. unfold listeners at 2.
  destruct (find r (Event_Name ev)) as [[idx rec]|] eqn:Hf.
  - by destruct (Remove_found r ev fn idx rec Hnd Hf) as [-> _].
  - rewrite (Remove_absent _ _ _ Hf). cbn [snd]. unfold listeners. by rewrite Hf.
Qed.

Lemma Remove_count (r : recordList) (ev : Event) (fn : Listener) :
  NoDup (names r) →
  fst (Remove r ev fn)
  = Z.of_nat (length (listeners (snd (Remove r ev fn)) (Event_Name ev))).
Proof.
  intros Hnd. destruct (find r (Event_Name ev)) as [[idx rec]|] eqn:Hf.
  - by destruct (Remove_found r ev fn idx rec Hnd Hf) as (-> & -> & _).
  - rewrite (Remove_absent _ _ _ Hf). cbn [fst snd]. unfold listeners. by rewrite Hf.
Qed.

Lemma remove_listener_length (l : list Listener) (fn : Listener) :
  length (remove_listener l fn)
  = (length l - (if decide (fn ∈ l) then 1 else 0))%nat.
Proof.
  destruct (decide (fn ∈ l)) as [Hin|Hin].
  - apply remove_listener_elem in Hin. rewrite Hin at 2. cbn [length]. lia.
  - rewrite remove_listener_not_elem by done. lia.
Qed.

(** The commands of [Subscribe] and [Unsubscribe], in terms of the
    registry's lookup. *)
Lemma Subscribe_Unsubscribe_by_find (ops : list op) (ev : Event) (l : Listener) :
  let p := run ops in
  let count q :=
    length (listeners (subs_get (subs q) (Event_Type ev)) (Event_Name ev)) in
  let sub :=
    {| cmd_command := SubCommand (Event_Type ev); cmd_args := [Event_Name ev] |} in
  let unsub :=
    {| cmd_command := UnsubCommand (Event_Type ev); cmd_args := [Event_Name ev] |} in
  send (Subscribe p ev l)
  = send p ++ (if decide (count p = 0%nat) then [sub] else [])
  ∧ count (Subscribe p ev l) = S (count p)
  ∧ send (Unsubscribe p ev l)
    = send p ++ (if decide (count (Unsubscribe p ev l) = 0%nat) then [unsub] else [])
  ∧ count (Unsubscribe p ev l)
    = (count p
       - (if decide (l ∈ listeners (subs_get (subs p) (Event_Type ev)) (Event_Name ev))
          then 1 else 0))%nat.
Proof.
  intros p count sub unsub.
  destruct (run_inv ops (Event_Type ev)) as [Hnd _]. fold p in Hnd.
  split; [|split; [|split]].
  - rewrite Subscribe_send, Add_count. fold (count p).
    destruct (decide (count p = 0%nat)) as [->|Hne]; [done|].
    by destruct (Z.eqb_spec (Z.of_nat (count p) + 1) 1); [lia|].
  - unfold count. rewrite Subscribe_subs, subs_get_set_same, Add_listeners, length_app.
    cbn [length]. lia.
  - rewrite Unsubscribe_send, Remove_count by done.
    unfold count. rewrite Unsubscribe_subs, subs_get_set_same.
    set (n := length _).
    destruct (decide (n = 0%nat)) as [->|Hne]; [done|].
    by destruct (Z.eqb_spec (Z.of_nat n) 0); [lia|].
  - unfold count. rewrite Unsubscribe_subs, subs_get_set_same, Remove_listeners by done.
    apply remove_listener_length.
Qed.



(** ** Resubscription *)




(** ** The same listener registered twice *)






(** ** [strconv]: parsing *)

Lemma is_digit_val (c : ascii) : is_digit c = true → 0 <= digit_val c <= 9.
Proof. unfold is_digit, digit_val. lia. Qed.

Lemma dec_val_mono (n : Z) (s : string) :
  0 <= n → all_digits s = true → n <= dec_val n s.
Proof.
  revert n. induction s as [|c s IH]; intros n Hn Hs; cbn [dec_val all_digits] in *.
  - lia.
  - apply andb_true_iff in Hs as [Hc Hs]. apply is_digit_val in Hc.
    etrans; [|apply IH]; [lia | lia | done].
Qed.

(** On digits the loop of [ParseUint] computes the decimal value, clamped to
    [maxVal] with a range error when the value exceeds it. *)
Lemma parse_loop_digits (maxVal n : Z) (s : string) :
  0 <= n <= maxVal → maxVal <= maxUint64 → all_digits s = true →
  parse_loop maxVal n s
  = if dec_val n s <=? maxVal then (dec_val n s, None) else (maxVal, Some ErrRange).
Proof.
  intros Hn Hmax. revert n Hn.
  induction s as [|c s IH]; intros n Hn Hs; cbn [parse_loop dec_val all_digits] in *.
  - by destruct (Z.leb_spec n maxVal); [|lia].
  - apply andb_true_iff in Hs as [Hc Hs]. rewrite Hc. cbn [negb].
    pose proof (is_digit_val c Hc) as Hd.
    assert (Hmono : n * 10 + digit_val c <= dec_val (n * 10 + digit_val c) s)
      by (apply dec_val_mono; [lia | done]).
    unfold maxUint64 in *.
    change ((2 ^ 64 - 1) / 10 + 1) with 1844674407370955162.
    destruct (Z.leb_spec 1844674407370955162 n) as [Hcut|Hcut].
    { by destruct (Z.leb_spec (dec_val (n * 10 + digit_val c) s) maxVal); [lia|]. }
    unfold to_uint64.
    destruct (Z.lt_ge_cases (n * 10 + digit_val c) (2 ^ 64)) as [Hfit|Hwrap].
    + rewrite Z.mod_small by lia.
      destruct (Z.ltb_spec (n * 10 + digit_val c) (n * 10)) as [?|_]; [lia|].
      cbn [orb].
      destruct (Z.ltb_spec maxVal (n * 10 + digit_val c)) as [Hover|Hok].
      * by destruct (Z.leb_spec (dec_val (n * 10 + digit_val c) s) maxVal); [lia|].
      * apply IH; [lia | done].
    + assert (Hm : (n * 10 + digit_val c) mod 2 ^ 64 = n * 10 + digit_val c - 2 ^ 64).
      { symmetry. apply (Z.mod_unique _ _ 1); lia. }
      rewrite Hm.
      destruct (Z.ltb_spec (n * 10 + digit_val c - 2 ^ 64) (n * 10)) as [_|?]; [|lia].
      cbn [orb].
      by destruct (Z.leb_spec (dec_val (n * 10 + digit_val c) s) maxVal); [lia|].
Qed.

(** A range error always comes with the clamped value. *)
Lemma parse_loop_range (maxVal n : Z) (s : string) :
  snd (parse_loop maxVal n s) = Some ErrRange → fst (parse_loop maxVal n s) = maxVal.
Proof.
  revert n. induction s as [|c s IH]; intros n; cbn [parse_loop]; [done|].
  destruct (negb (is_digit c)); [done|].
  destruct (maxUint64 / 10 + 1 <=? n); [done|].
  destruct (_ || _); [done | apply IH].
Qed.

(** A byte that is not a digit makes the loop fail. *)
Lemma parse_loop_not_digits (maxVal n : Z) (s : string) :
  all_digits s = false → snd (parse_loop maxVal n s) ≠ None.
Proof.
  revert n. induction s as [|c s IH]; intros n; cbn [parse_loop all_digits]; [done|].
  destruct (is_digit c); cbn [negb andb]; [|done]. intros Hs.
  destruct (maxUint64 / 10 + 1 <=? n); [done|].
  destruct (_ || _); [done | by apply IH].
Qed.

Lemma ParseUint_numeral (s : string) (bitSize : Z) :
  bitSize = 32 ∨ bitSize = 64 → unsigned_syntax s = true →
  ParseUint s bitSize
  = if dec_val 0 s <? 2 ^ bitSize then (dec_val 0 s, None)
    else (2 ^ bitSize - 1, Some ErrRange).
Proof.
  intros Hb Hs. destruct s as [|c s]; [done|]. unfold ParseUint.
  cbn [unsigned_syntax] in Hs.
  assert (Hmax : to_uint64 (to_uint64 (2 ^ (if bitSize =? 0 then IntSize else bitSize)) - 1)
                 = 2 ^ bitSize - 1) by (by destruct Hb as [-> | ->]).
  rewrite Hmax, parse_loop_digits; [| |unfold maxUint64|done].
  - destruct (Z.leb_spec (dec_val 0 (String c s)) (2 ^ bitSize - 1)),
      (Z.ltb_spec (dec_val 0 (String c s)) (2 ^ bitSize)); (done || lia).
  - destruct Hb as [-> | ->]; lia.
  - destruct Hb as [-> | ->]; lia.
Qed.

Lemma ParseUint_not_numeral (s : string) (bitSize : Z) :
  unsigned_syntax s = false →
  snd (ParseUint s bitSize) ≠ None
  ∧ (snd (ParseUint s bitSize) = Some ErrRange →
     fst (ParseUint s bitSize)
     = to_uint64 (to_uint64 (2 ^ (if bitSize =? 0 then IntSize else bitSize)) - 1)).
Proof.
  intros Hs. destruct s as [|c s]; [done|]. unfold ParseUint. split.
  - by apply parse_loop_not_digits.
  - apply parse_loop_range.
Qed.

Lemma to_int64_small (z : Z) : - 2 ^ 63 <= z < 2 ^ 63 → to_int64 z = z.
Proof. intros Hz. unfold to_int64. rewrite Z.mod_small; lia. Qed.

Lemma dec_val_nonneg (s : string) : all_digits s = true → 0 <= dec_val 0 s.
Proof. by apply dec_val_mono. Qed.

Lemma unsigned_syntax_digits (s : string) : unsigned_syntax s = true → all_digits s = true.
Proof. by destruct s. Qed.

(** [ParseInt] in terms of the sign and the digits of its argument. *)
Lemma ParseInt_split (s : string) (bitSize : Z) :
  s ≠ "" →
  ParseInt s bitSize
  = let '(neg, s') := split_sign s in
    let '(un, err) := ParseUint s' bitSize in
    match err with
    | Some ErrSyntax => (0, err)
    | _ =>
        let bitSize := if bitSize =? 0 then IntSize else bitSize in
        let cutoff := to_uint64 (2 ^ (bitSize - 1)) in
        if negb neg && (cutoff <=? un) then (to_int64 (cutoff - 1), Some ErrRange)
        else if neg && (cutoff <? un) then (to_int64 (- to_int64 cutoff), Some ErrRange)
        else (if neg then to_int64 (- to_int64 un) else to_int64 un, None)
    end.
Proof.
  intros Hs. destruct s as [|c0 s1]; [done|]. unfold ParseInt, split_sign.
  destruct (Ascii.eqb c0 "+"); [|destruct (Ascii.eqb c0 "-")];
    destruct (ParseUint _ bitSize) as [un [[]|]]; reflexivity.
Qed.

Lemma to_int64_neg (z : Z) : 0 <= z <= 2 ^ 63 → to_int64 (- to_int64 z) = - z.
Proof.
  intros Hz. destruct (Z.eq_dec z (2 ^ 63)) as [->|Hne]; [done|].
  rewrite (to_int64_small z) by lia. apply to_int64_small. lia.
Qed.

Local Ltac split_if :=
  match goal with
  | |- context [if ?b then _ else _] => let E := fresh "E" in destruct b eqn:E
  end.

Lemma ParseInt_numeral (s : string) (bitSize : Z) :
  bitSize = 32 ∨ bitSize = 64 → signed_syntax s = true →
  ParseInt s bitSize
  = let v := signed_value s in
    if (- 2 ^ (bitSize - 1) <=? v) && (v <? 2 ^ (bitSize - 1)) then (v, None)
    else (if v <? 0 then - 2 ^ (bitSize - 1) else 2 ^ (bitSize - 1) - 1, Some ErrRange).
Proof.
  intros Hb Hs. rewrite ParseInt_split by (by destruct s).
  unfold signed_syntax, signed_value in *.
  destruct (split_sign s) as [neg d]. cbn [snd] in Hs.
  rewrite (ParseUint_numeral d bitSize Hb Hs).
  pose proof (dec_val_nonneg d (unsigned_syntax_digits d Hs)) as Hd.
  set (dv := dec_val 0 d) in *. cbv zeta.
  destruct Hb as [-> | ->].
  - change (to_uint64 (2 ^ ((if 32 =? 0 then IntSize else 32) - 1))) with 2147483648.
    change (to_int64 (2147483648 - 1)) with 2147483647.
    change (to_int64 (- to_int64 2147483648)) with (-2147483648).
    change (2 ^ (32 - 1)) with 2147483648. change (2 ^ 32) with 4294967296.
    destruct neg; cbn [negb andb]; repeat split_if; try lia; f_equal; try lia.
    + apply to_int64_neg. lia.
    + apply to_int64_small. lia.
  - change (to_uint64 (2 ^ ((if 64 =? 0 then IntSize else 64) - 1)))
      with 9223372036854775808.
    change (to_int64 (9223372036854775808 - 1)) with 9223372036854775807.
    change (to_int64 (- to_int64 9223372036854775808)) with (-9223372036854775808).
    change (2 ^ (64 - 1)) with 9223372036854775808.
    change (2 ^ 64) with 18446744073709551616.
    destruct neg; cbn [negb andb]; repeat split_if; try lia; f_equal; try lia.
    + apply to_int64_neg. lia.
    + apply to_int64_small. lia.
Qed.

Lemma ParseInt_not_numeral (s : string) (bitSize : Z) :
  bitSize = 32 ∨ bitSize = 64 → signed_syntax s = false →
  snd (ParseInt s bitSize) ≠ None.
Proof.
  intros Hb Hs. destruct (decide (s = "")) as [->|Hne]; [done|].
  rewrite ParseInt_split by done. unfold signed_syntax in Hs.
  destruct (split_sign s) as [neg d]. cbn [snd] in Hs.
  destruct (ParseUint_not_numeral d bitSize Hs) as [Herr Hval].
  destruct (ParseUint d bitSize) as [un [[]|]]; cbn [fst snd] in *; [done| |done].
  rewrite (Hval eq_refl). cbv zeta.
  destruct Hb as [-> | ->]; by destruct neg.
Qed.

(** ** [strconv]: formatting *)

Lemma digit_char_digit (d : Z) :
  0 <= d <= 9 → is_digit (digit_char d) = true ∧ digit_val (digit_char d) = d.
Proof.
  intros Hd.
  assert (d = 0 ∨ d = 1 ∨ d = 2 ∨ d = 3 ∨ d = 4 ∨ d = 5 ∨ d = 6 ∨ d = 7 ∨ d = 8 ∨ d = 9)
    as Hcases by lia.
  by repeat (destruct Hcases as [-> | Hcases]; [done|]); subst d.
Qed.

Lemma all_digits_app (s1 s2 : string) :
  all_digits (s1 +:+ s2) = all_digits s1 && all_digits s2.
Proof.
  induction s1 as [|c s1 IH]; [done|].
  change (String c s1 +:+ s2) with (String c (s1 +:+ s2)). cbn [all_digits].
  by rewrite IH, andb_assoc.
Qed.

Lemma dec_val_app (n : Z) (s1 s2 : string) :
  dec_val n (s1 +:+ s2) = dec_val (dec_val n s1) s2.
Proof.
  revert n. induction s1 as [|c s1 IH]; intros n; [done|].
  change (String c s1 +:+ s2) with (String c (s1 +:+ s2)). cbn [dec_val]. apply IH.
Qed.

Lemma format_loop_acc (fuel : nat) (u : Z) (acc : string) :
  format_loop fuel u acc = format_loop fuel u "" +:+ acc.
Proof.
  revert u acc. induction fuel as [|fuel IH]; intros u acc; [done|].
  cbn [format_loop]. destruct (u <? 10); [done|].
  rewrite (IH _ (String _ acc)), (IH _ (String _ "")). by rewrite append_assoc.
Qed.

Lemma format_loop_digits (fuel : nat) (u : Z) :
  0 <= u → all_digits (format_loop fuel u "") = true.
Proof.
  revert u. induction fuel as [|fuel IH]; intros u Hu; [done|].
  cbn [format_loop].
  pose proof (Z.mod_pos_bound u 10 ltac:(lia)) as Hmod.
  destruct (digit_char_digit (u mod 10)) as [Hd _]; [lia|].
  destruct (u <? 10); cbn [all_digits].
  - by rewrite Hd.
  - rewrite format_loop_acc, all_digits_app. cbn [all_digits].
    rewrite Hd, IH; [done|]. apply Z.div_pos; lia.
Qed.

Lemma format_loop_value (fuel : nat) (u : Z) :
  0 <= u < 10 ^ Z.of_nat fuel → dec_val 0 (format_loop fuel u "") = u.
Proof.
  revert u. induction fuel as [|fuel IH]; intros u Hu.
  - cbn in *. lia.
  - cbn [format_loop].
    pose proof (Z.mod_pos_bound u 10 ltac:(lia)) as Hmod.
    destruct (digit_char_digit (u mod 10)) as [_ Hd]; [lia|].
    destruct (Z.ltb_spec u 10) as [Hlt|Hge]; cbn [dec_val].
    + rewrite Hd. rewrite Z.mod_small; lia.
    + rewrite format_loop_acc, dec_val_app. cbn [dec_val]. rewrite Hd, IH.
      * pose proof (Z.div_mod u 10 ltac:(lia)). lia.
      * rewrite Nat2Z.inj_succ, Z.pow_succ_r in Hu by lia.
        split; [apply Z.div_pos; lia | apply Z.div_lt_upper_bound; lia].
Qed.

Lemma format_loop_cons (fuel : nat) (u : Z) (c : ascii) (acc : string) :
  format_loop fuel u (String c acc) ≠ "".
Proof.
  revert u c acc. induction fuel as [|fuel IH]; intros u c acc; [done|].
  cbn [format_loop]. destruct (u <? 10); [done | apply IH].
Qed.

Lemma format_loop_nonempty (fuel : nat) (u : Z) (acc : string) :
  format_loop (S fuel) u acc ≠ "".
Proof. cbn [format_loop]. destruct (u <? 10); [done | apply format_loop_cons]. Qed.

Lemma FormatUint_numeral (u : Z) :
  0 <= u < 2 ^ 64 →
  unsigned_syntax (FormatUint u) = true ∧ dec_val 0 (FormatUint u) = u.
Proof.
  intros Hu. unfold FormatUint. split.
  - pose proof (format_loop_digits 20 u ltac:(lia)) as Hd.
    destruct (format_loop 20 u "") as [|c s] eqn:Hs; [|done].
    by apply format_loop_nonempty in Hs.
  - apply format_loop_value. change (10 ^ Z.of_nat 20) with 100000000000000000000. lia.
Qed.

Lemma split_sign_unsigned (s : string) :
  unsigned_syntax s = true → split_sign s = (false, s).
Proof.
  destruct s as [|c s]; [done|]. cbn [unsigned_syntax all_digits split_sign].
  intros Hs. apply andb_true_iff in Hs as [Hc _].
  destruct (Ascii.eqb_spec c "+") as [->|_]; [done|].
  by destruct (Ascii.eqb_spec c "-") as [->|_].
Qed.

(** [Itoa] renders an [int] as the numeral of the same value. *)
Lemma Itoa_numeral (x : Z) :
  - 2 ^ 63 <= x < 2 ^ 63 → signed_syntax (Itoa x) = true ∧ signed_value (Itoa x) = x.
Proof.
  intros Hx. unfold Itoa, signed_syntax, signed_value.
  destruct (Z.ltb_spec x 0) as [Hneg|Hpos].
  - assert (Hu : to_uint64 (- x) = - x) by (unfold to_uint64; rewrite Z.mod_small; lia).
    rewrite Hu. destruct (FormatUint_numeral (- x)) as [Hs Hv]; [lia|].
    change (split_sign (String "-" (FormatUint (- x)))) with (true, FormatUint (- x)).
    cbn [snd]. split; [done | lia].
  - destruct (FormatUint_numeral x) as [Hs Hv]; [lia|].
    rewrite (split_sign_unsigned _ Hs). cbn [snd]. by split.
Qed.

(** ** The integer accessors of [Field] *)

Lemma ParseUint_ok (s : string) (bitSize : Z) :
  bitSize = 32 ∨ bitSize = 64 →
  (snd (ParseUint s bitSize) = None
   ↔ unsigned_syntax s = true ∧ dec_val 0 s < 2 ^ bitSize)
  ∧ (snd (ParseUint s bitSize) = None → fst (ParseUint s bitSize) = dec_val 0 s).
Proof.
  intros Hb. destruct (unsigned_syntax s) eqn:Hs.
  - rewrite (ParseUint_numeral s bitSize Hb Hs).
    destruct (Z.ltb_spec (dec_val 0 s) (2 ^ bitSize)); cbn [fst snd].
    + by split; [split|].
    + split; [split|]; [done | intros [_ ?]; lia | done].
  - destruct (ParseUint_not_numeral s bitSize Hs) as [Herr _].
    split; [split|]; [done | by intros [? _] | done].
Qed.

Lemma ParseInt_ok (s : string) (bitSize : Z) :
  bitSize = 32 ∨ bitSize = 64 →
  (snd (ParseInt s bitSize) = None
   ↔ signed_syntax s = true
     ∧ - 2 ^ (bitSize - 1) <= signed_value s < 2 ^ (bitSize - 1))
  ∧ (snd (ParseInt s bitSize) = None → fst (ParseInt s bitSize) = signed_value s).
Proof.
  intros Hb. destruct (signed_syntax s) eqn:Hs.
  - rewrite (ParseInt_numeral s bitSize Hb Hs). cbv zeta.
    destruct (Z.leb_spec (- 2 ^ (bitSize - 1)) (signed_value s));
      destruct (Z.ltb_spec (signed_value s) (2 ^ (bitSize - 1)));
      cbn [andb fst snd]; (split; [split|]); (done || (try intros [_ ?]; lia)).
  - pose proof (ParseInt_not_numeral s bitSize Hb Hs) as Herr.
    split; [split|]; [done | by intros [? _] | done].
Qed.

(** C8, as the code has it: the accessors never panic, they return a value
    and an error.  [Int64] succeeds exactly on the numerals (an optional
    sign, then decimal digits) whose value fits a signed 64-bit integer, and
    [Uint64] exactly on the unsigned numerals (decimal digits only) whose
    value fits an unsigned 64-bit integer; both then return that value.
    [Int] fails on every value that is not a numeral and returns the value
    of every numeral within the signed 32-bit range; in particular
    [Int(x).Int()] returns [(x, nil)] for every [x] in that range. *)
Theorem Field_integer_accessors (f : Field) :
  (snd (Field_Int64 f) = None
   ↔ signed_syntax (value f) = true ∧ - 2 ^ 63 <= signed_value (value f) < 2 ^ 63)
  ∧ (snd (Field_Int64 f) = None → fst (Field_Int64 f) = signed_value (value f))
  ∧ (snd (Field_Uint64 f) = None
     ↔ unsigned_syntax (value f) = true ∧ dec_val 0 (value f) < 2 ^ 64)
  ∧ (snd (Field_Uint64 f) = None → fst (Field_Uint64 f) = dec_val 0 (value f))
  ∧ (signed_syntax (value f) = false → snd (Field_Int f) ≠ None)
  ∧ (signed_syntax (value f) = true →
     - 2 ^ 31 <= signed_value (value f) < 2 ^ 31 →
     Field_Int f = (signed_value (value f), None))
  ∧ (∀ x, - 2 ^ 31 <= x < 2 ^ 31 → Field_Int (Int x) = (x, None)).
Proof.
  assert (HInt : ∀ s, signed_syntax s = true → - 2 ^ 31 <= signed_value s < 2 ^ 31 →
                      (let '(x, err) := ParseInt s 32 in (to_int x, err))
                      = (signed_value s, None)).
  { intros s Hs Hv. rewrite ParseInt_numeral by (by left || done). cbv zeta.
    change (2 ^ (32 - 1)) with (2 ^ 31).
    destruct (Z.leb_spec (- 2 ^ 31) (signed_value s)); [|lia].
    destruct (Z.ltb_spec (signed_value s) (2 ^ 31)); [|lia]. cbn [andb].
    unfold to_int. by rewrite to_int64_small by lia. }
  unfold Field_Int64, Field_Uint64.
  destruct (ParseInt_ok (value f) 64 ltac:(by right)) as [HI64 HI64v].
  destruct (ParseUint_ok (value f) 64 ltac:(by right)) as [HU64 HU64v].
  change (2 ^ (64 - 1)) with (2 ^ 63) in HI64.
  split; [done | split; [done | split; [done | split; [done | split; [|split]]]]].
  - intros Hs. unfold Field_Int.
    pose proof (ParseInt_not_numeral (value f) 32 ltac:(by left) Hs) as Herr.
    by destruct (ParseInt (value f) 32).
  - apply HInt.
  - intros x Hx. destruct (Itoa_numeral x ltac:(lia)) as [Hsx Hvx].
    unfold Field_Int, Int. cbn [value]. rewrite <- Hvx at 2. apply HInt; [done | lia].
Qed.

Lemma Field_integer_accessors_witness :
  Field_Int (Int 42) = (42, None)
  ∧ Field_Int (String_ "-12") = (-12, None)
  ∧ snd (Field_Int (String_ "4x")) ≠ None.
Proof.
  split; [|split].
  - apply (Field_integer_accessors (Int 42)). lia.
  - apply (Field_integer_accessors (String_ "-12")); [reflexivity | vm_compute; by split].
  - apply (Field_integer_accessors (String_ "4x")). reflexivity.
Defined.

(** C8, as stated, fails: the values below are decimal renderings of
    integers and the accessors return an error on them.  [Int] parses with a
    bit size of 32, so [Int(x).Int()] fails for the [int] [x = 2147483648];
    [Uint64] rejects a sign; [Int64] fails above the signed 64-bit range. *)
Lemma Field_accessors_numeric_error :
  signed_syntax (value (Int 2147483648)) = true
  ∧ Field_Int (Int 2147483648) = (2147483647, Some ErrRange)
  ∧ signed_syntax (value (Int (-1))) = true
  ∧ Field_Uint64 (Int (-1)) = (0, Some ErrSyntax)
  ∧ signed_syntax "9223372036854775808" = true
  ∧ Field_Int64 (String_ "9223372036854775808") = (9223372036854775807, Some ErrRange).
Proof. by vm_compute. Qed.

(** * Further properties of the event model *)

(** X1: at every index that is not negative [Get] returns, without a
    panic: the field at that position when there is one, the absent field
    otherwise. *)
Theorem Event_Get_nonneg (e : Event) (i : Z) :
  0 <= i →
  Event_Get e i = Returns (default zeroField (fields e !! Z.to_nat i))
  ∧ (Event_Len e <= i → Event_Get e i = Returns zeroField).
Proof.
  intros Hi. split; [|apply Event_Get_beyond].
  destruct (Z.lt_ge_cases i (Event_Len e)) as [Hlt|Hge].
  - destruct (Event_Get_in_range e i) as (f & Hf & ->); [lia|]. by rewrite Hf.
  - rewrite Event_Get_beyond by done. unfold Event_Len in Hge.
    rewrite lookup_ge_None_2; [done | lia].
Qed.

Lemma Event_Get_nonneg_witness :
  Event_Get {| fields := [String_ "prefix:"; String_ "foo:"; Int 42]; kind := PlainEvent |} 2
  = Returns (Int 42)
  ∧ Event_Get {| fields := [String_ "foo"]; kind := PlainEvent |} 1 = Returns zeroField.
Proof.
  split.
  - apply (Event_Get_nonneg
             {| fields := [String_ "prefix:"; String_ "foo:"; Int 42]; kind := PlainEvent |} 2).
    lia.
  - apply (Event_Get_nonneg {| fields := [String_ "foo"]; kind := PlainEvent |} 1);
      [lia | vm_compute; discriminate].
Defined.

(** X2: a field given the alias [a] with [As] is what [Find(a)] returns,
    provided no earlier field of the event carries that alias; the alias
    changes neither the value nor the validity of the field. *)
Theorem Event_Find_As (pre post : list Field) (f : Field) (a : string) (k : EventType) :
  Forall (fun g => alias g ≠ a) pre →
  let found := Event_Find {| fields := pre ++ Field_As f a :: post; kind := k |} a in
  found = Field_As f a
  ∧ Field_String found = Field_String f
  ∧ Field_IsZero found = Field_IsZero f.
Proof.
  intros Hpre found.
  assert (Hfound : found = Field_As f a).
  { unfold found, Event_Find. cbn [fields].
    induction Hpre as [|g pre Hg _ IH]; cbn [app find_alias].
    - cbn [Field_As alias]. by rewrite String.eqb_refl.
    - by destruct (String.eqb_spec (alias g) a). }
  by rewrite Hfound.
Qed.

Lemma Event_Find_As_witness :
  Event_Find {| fields := [String_ "foo"; Field_As (Int 1) "bar"]; kind := PlainEvent |} "bar"
  = Field_As (Int 1) "bar".
Proof.
  apply (Event_Find_As [String_ "foo"] [] (Int 1) "bar" PlainEvent).
  by repeat constructor.
Defined.

(** X3: [NewEvent] and [NewPatternEvent] panic exactly on a name that is
    neither a string, a byte slice nor a field.  From a string name they
    build an event whose name is that string followed by the values of the
    fields, whose first field is the name, and whose commands are
    SUBSCRIBE/UNSUBSCRIBE, respectively PSUBSCRIBE/PUNSUBSCRIBE. *)
Theorem NewEvent_result (v : name_arg) (s : string) (fs : list Field) :
  (NewEvent v fs = Panics ↔ v = ArgOther)
  ∧ (NewPatternEvent v fs = Panics ↔ v = ArgOther)
  ∧ (∃ e, NewEvent (ArgString s) fs = Returns e
          ∧ Event_Name e = s +:+ foldr String.append "" (map value fs)
          ∧ Event_Len e = Z.of_nat (length fs) + 1
          ∧ Event_Get e 0 = Returns (String_ s)
          ∧ SubCommand (Event_Type e) = "SUBSCRIBE"
          ∧ UnsubCommand (Event_Type e) = "UNSUBSCRIBE")
  ∧ (∃ e, NewPatternEvent (ArgString s) fs = Returns e
          ∧ Event_Name e = s +:+ foldr String.append "" (map value fs)
          ∧ Event_Len e = Z.of_nat (length fs) + 1
          ∧ Event_Get e 0 = Returns (String_ s)
          ∧ SubCommand (Event_Type e) = "PSUBSCRIBE"
          ∧ UnsubCommand (Event_Type e) = "PUNSUBSCRIBE").
Proof.
  split; [|split; [|split]].
  - by destruct v.
  - by destruct v.
  - eexists. split; [reflexivity|]. split; [|split; [|done]].
    + unfold Event_Name. by rewrite Join_empty_sep.
    + unfold Event_Len. cbn [fields app length]. lia.
  - eexists. split; [reflexivity|]. split; [|split; [|done]].
    + unfold Event_Name. by rewrite Join_empty_sep.
    + unfold Event_Len. cbn [fields app length]. lia.
Qed.

(** X4: the four command verbs are pairwise distinct: a subscribe verb is
    never an unsubscribe verb, and each verb determines the event type. *)
Theorem command_verbs_distinct (k k' : EventType) :
  SubCommand k ≠ UnsubCommand k'
  ∧ (SubCommand k = SubCommand k' ↔ k = k')
  ∧ (UnsubCommand k = UnsubCommand k' ↔ k = k').
Proof. by destruct k, k'. Qed.

(** X5: a byte slice taken from a field with [Bytes] and passed as the name
    of a new event gives back a field of the same value, hence an event of
    that name. *)
Theorem Field_Bytes_roundtrip (f : Field) :
  toFieldFromString (ArgBytes (Field_Bytes f)) = Returns (String_ (value f))
  ∧ ∃ e, NewEvent (ArgBytes (Field_Bytes f)) [] = Returns e
         ∧ Event_Name e = Field_String f.
Proof.
  unfold NewEvent, toFieldFromString, Field_Bytes.
  rewrite string_of_list_ascii_of_string. split; [done|].
  eexists. split; [reflexivity|]. done.
Qed.

(** X21: giving aliases to the fields of an event does not change its
    name. *)
Theorem Event_Name_ignores_alias (fs : list Field) (al : Field → string) (k : EventType) :
  Event_Name {| fields := map (fun f => Field_As f (al f)) fs; kind := k |}
  = Event_Name {| fields := fs; kind := k |}.
Proof.
  unfold Event_Name. cbn [fields]. f_equal.
  induction fs as [|f fs IH]; [done|]. cbn [map]. by rewrite IH.
Qed.

(** * Further properties of the integer accessors *)

(** X6: [Int64] gives back every [int] rendered by [Int], over the whole
    signed 64-bit range. *)
Theorem Field_Int64_roundtrip (x : Z) :
  - 2 ^ 63 <= x < 2 ^ 63 → Field_Int64 (Int x) = (x, None).
Proof.
  intros Hx. destruct (Itoa_numeral x Hx) as [Hs Hv].
  unfold Field_Int64, Int. cbn [value].
  rewrite ParseInt_numeral by (by right || done). cbv zeta. rewrite Hv.
  change (2 ^ (64 - 1)) with (2 ^ 63).
  destruct (Z.leb_spec (- 2 ^ 63) x); [|lia].
  by destruct (Z.ltb_spec x (2 ^ 63)); [|lia].
Qed.

Lemma Field_Int64_roundtrip_witness :
  Field_Int64 (Int (-9223372036854775808)) = (-9223372036854775808, None).
Proof. apply Field_Int64_roundtrip. lia. Defined.

(** X7: [Uint64] gives back every non-negative [int] rendered by [Int] and
    rejects every negative one with a syntax error and the value 0 (the
    sign is not a digit). *)
Theorem Field_Uint64_of_Int (x : Z) :
  - 2 ^ 63 <= x < 2 ^ 63 →
  Field_Uint64 (Int x) = if x <? 0 then (0, Some ErrSyntax) else (x, None).
Proof.
  intros Hx. unfold Field_Uint64, Int, Itoa. cbn [value].
  destruct (Z.ltb_spec x 0) as [Hneg|Hpos]; [done|].
  destruct (FormatUint_numeral x) as [Hs Hv]; [lia|].
  rewrite ParseUint_numeral by (by right || done). rewrite Hv.
  by destruct (Z.ltb_spec x (2 ^ 64)); [|lia].
Qed.

Lemma Field_Uint64_of_Int_witness :
  Field_Uint64 (Int 42) = (42, None) ∧ Field_Uint64 (Int (-42)) = (0, Some ErrSyntax).
Proof. split; [apply (Field_Uint64_of_Int 42) | apply (Field_Uint64_of_Int (-42))]; lia. Defined.

(** X8: on a numeral whose value is outside the range of the accessor, the
    accessor returns the bound of the range nearest to the value, with a
    range error: [Int] clamps to the signed 32-bit range, [Int64] to the
    signed 64-bit range. *)
Theorem Field_Int_clamps (f : Field) :
  signed_syntax (value f) = true →
  let v := signed_value (value f) in
  (2 ^ 31 <= v → Field_Int f = (2 ^ 31 - 1, Some ErrRange))
  ∧ (v < - 2 ^ 31 → Field_Int f = (- 2 ^ 31, Some ErrRange))
  ∧ (2 ^ 63 <= v → Field_Int64 f = (2 ^ 63 - 1, Some ErrRange))
  ∧ (v < - 2 ^ 63 → Field_Int64 f = (- 2 ^ 63, Some ErrRange)).
Proof.
  intros Hs v. unfold Field_Int, Field_Int64.
  rewrite !ParseInt_numeral by ((by left) || (by right) || done). cbv zeta. fold v.
  change (2 ^ (32 - 1)) with (2 ^ 31). change (2 ^ (64 - 1)) with (2 ^ 63).
  split; [|split; [|split]]; intros Hv; repeat split_if; try lia; done.
Qed.

Lemma Field_Int_clamps_witness :
  Field_Int (String_ "4294967296") = (2147483647, Some ErrRange)
  ∧ Field_Int64 (String_ "-9223372036854775809") = (-9223372036854775808, Some ErrRange).
Proof.
  split.
  - apply (Field_Int_clamps (String_ "4294967296")); [reflexivity | by vm_compute].
  - apply (Field_Int_clamps (String_ "-9223372036854775809")); [reflexivity | by vm_compute].
Defined.

Lemma parse_loop_bounds (maxVal n : Z) (s : string) :
  0 <= n <= maxVal →
  0 <= fst (parse_loop maxVal n s) <= maxVal
  ∧ (snd (parse_loop maxVal n s) = Some ErrSyntax → fst (parse_loop maxVal n s) = 0).
Proof.
  revert n. induction s as [|c s IH]; intros n Hn; cbn [parse_loop].
  - by split.
  - destruct (negb (is_digit c)); cbn [fst snd]; [split; [lia | done]|].
    destruct (maxUint64 / 10 + 1 <=? n); cbn [fst snd]; [split; [lia | done]|].
    destruct (Z.ltb_spec (to_uint64 (n * 10 + digit_val c)) (n * 10)); cbn [orb fst snd];
      [split; [lia | done]|].
    destruct (Z.ltb_spec maxVal (to_uint64 (n * 10 + digit_val c))); cbn [fst snd];
      [split; [lia | done]|].
    apply IH. unfold to_uint64 in *.
    pose proof (Z.mod_pos_bound (n * 10 + digit_val c) (2 ^ 64) ltac:(lia)). lia.
Qed.

Lemma ParseUint_bounds (s : string) (bitSize : Z) :
  bitSize = 32 ∨ bitSize = 64 →
  0 <= fst (ParseUint s bitSize) < 2 ^ bitSize
  ∧ (snd (ParseUint s bitSize) = Some ErrSyntax → fst (ParseUint s bitSize) = 0).
Proof.
  intros Hb. destruct s as [|c s]; unfold ParseUint.
  - cbn [fst snd]. split; [|done]. destruct Hb as [-> | ->]; lia.
  - set (maxVal := to_uint64 _).
    assert (HmaxVal : maxVal = 2 ^ bitSize - 1) by (by destruct Hb as [-> | ->]).
    destruct (parse_loop_bounds maxVal 0 (String c s)) as [Hrange Hsyn].
    { destruct Hb as [-> | ->]; rewrite HmaxVal; lia. }
    split; [lia | done].
Qed.

Lemma ParseInt_bounds (s : string) (bitSize : Z) :
  bitSize = 32 ∨ bitSize = 64 →
  - 2 ^ (bitSize - 1) <= fst (ParseInt s bitSize) < 2 ^ (bitSize - 1)
  ∧ (snd (ParseInt s bitSize) = Some ErrSyntax → fst (ParseInt s bitSize) = 0).
Proof.
  intros Hb. destruct (decide (s = "")) as [->|Hne].
  { cbn [ParseInt fst snd]. split; [|done]. destruct Hb as [-> | ->]; lia. }
  rewrite ParseInt_split by done. destruct (split_sign s) as [neg d].
  destruct (ParseUint_bounds d bitSize Hb) as [Hun _].
  destruct (ParseUint d bitSize) as [un err]. cbn [fst] in Hun.
  assert (Htail :
    let bs := if bitSize =? 0 then IntSize else bitSize in
    let cutoff := to_uint64 (2 ^ (bs - 1)) in
    let res :=
      if negb neg && (cutoff <=? un) then (to_int64 (cutoff - 1), Some ErrRange)
      else if neg && (cutoff <? un) then (to_int64 (- to_int64 cutoff), Some ErrRange)
      else (if neg then to_int64 (- to_int64 un) else to_int64 un, @None NumError) in
    - 2 ^ (bitSize - 1) <= fst res < 2 ^ (bitSize - 1) ∧ snd res ≠ Some ErrSyntax).
  { cbv zeta. destruct Hb as [-> | ->].
    - change (to_uint64 (2 ^ ((if 32 =? 0 then IntSize else 32) - 1))) with 2147483648.
      change (to_int64 (2147483648 - 1)) with 2147483647.
      change (to_int64 (- to_int64 2147483648)) with (-2147483648).
      change (2 ^ (32 - 1)) with 2147483648. change (2 ^ 32) with 4294967296 in Hun.
      destruct neg; cbn [negb andb]; repeat split_if; cbn [fst snd]; (split; [|done]).
      all: try lia.
      + rewrite to_int64_neg by lia. lia.
      + rewrite to_int64_small by lia. lia.
    - change (to_uint64 (2 ^ ((if 64 =? 0 then IntSize else 64) - 1)))
        with 9223372036854775808.
      change (to_int64 (9223372036854775808 - 1)) with 9223372036854775807.
      change (to_int64 (- to_int64 9223372036854775808)) with (-9223372036854775808).
      change (2 ^ (64 - 1)) with 9223372036854775808.
      destruct neg; cbn [negb andb]; repeat split_if; cbn [fst snd]; (split; [|done]).
      all: try lia.
      + rewrite to_int64_neg by lia. lia.
      + rewrite to_int64_small by lia. lia. }
  cbv zeta in Htail. destruct Htail as [Hrange Hnosyn].
  destruct err as [[]|]; cbn [fst snd].
  - split; [|done]. destruct Hb as [-> | ->]; lia.
  - by split.
  - by split.
Qed.

(** X9: whatever the value of the field, the number an accessor returns
    fits its type ([Int] within 32 bits, as it parses), also when it returns
    an error; a syntax error always comes with the number 0. *)
Theorem Field_accessor_bounds (f : Field) :
  (- 2 ^ 31 <= fst (Field_Int f) < 2 ^ 31)
  ∧ (- 2 ^ 63 <= fst (Field_Int64 f) < 2 ^ 63)
  ∧ (0 <= fst (Field_Uint64 f) < 2 ^ 64)
  ∧ (snd (Field_Int f) = Some ErrSyntax → fst (Field_Int f) = 0)
  ∧ (snd (Field_Int64 f) = Some ErrSyntax → fst (Field_Int64 f) = 0)
  ∧ (snd (Field_Uint64 f) = Some ErrSyntax → fst (Field_Uint64 f) = 0).
Proof.
  destruct (ParseInt_bounds (value f) 32 ltac:(by left)) as [H32 H32s].
  destruct (ParseInt_bounds (value f) 64 ltac:(by right)) as [H64 H64s].
  destruct (ParseUint_bounds (value f) 64 ltac:(by right)) as [HU HUs].
  change (2 ^ (32 - 1)) with (2 ^ 31) in H32. change (2 ^ (64 - 1)) with (2 ^ 63) in H64.
  unfold Field_Int, Field_Int64, Field_Uint64.
  destruct (ParseInt (value f) 32) as [x err]. cbn [fst snd] in *.
  unfold to_int. rewrite to_int64_small by lia.
  split; [done | split; [done | split; [done | split; [done | split; done]]]].
Qed.

Lemma Field_accessor_bounds_witness :
  fst (Field_Int (String_ "12a")) = 0 ∧ fst (Field_Uint64 (String_ "-1")) = 0.
Proof.
  split.
  - apply (Field_accessor_bounds (String_ "12a")). reflexivity.
  - apply (Field_accessor_bounds (String_ "-1")). reflexivity.
Defined.

(** X10: [Int] renders distinct [int]s as distinct field values. *)
Theorem Int_value_injective (x y : Z) :
  - 2 ^ 63 <= x < 2 ^ 63 → - 2 ^ 63 <= y < 2 ^ 63 →
  x ≠ y → value (Int x) ≠ value (Int y).
Proof.
  intros Hx Hy Hne Heq. apply Hne. cbn [Int value] in Heq.
  destruct (Itoa_numeral x Hx) as [_ <-]. destruct (Itoa_numeral y Hy) as [_ <-].
  by rewrite Heq.
Qed.

Lemma Int_value_injective_witness : value (Int 7) ≠ value (Int (-7)).
Proof. apply Int_value_injective; lia. Defined.

(** * Further properties of the registry *)

(** X11: [find] returns the first record of the given name with its index,
    and fails exactly when no record has the name. *)
Theorem find_characterisation (r : recordList) (n : string) (i : nat) (rec : record) :
  (find r n = Some (i, rec)
   ↔ r !! i = Some rec ∧ rec_name rec = n ∧ n ∉ names (take i r))
  ∧ (find r n = None ↔ n ∉ names r).
Proof.
  split; [split|apply find_None].
  - apply find_Some.
  - intros (Hi & <- & Hpre). unfold find. by rewrite (find_first 0 r i rec).
Qed.

Lemma find_lookup (r : recordList) (i : nat) (rec : record) :
  NoDup (names r) → r !! i = Some rec → find r (rec_name rec) = Some (i, rec).
Proof.
  intros Hnd Hi. unfold find. rewrite (find_first 0 r i rec); [done | done |].
  rewrite <- (take_drop_middle r i rec Hi) in Hnd. unfold names in *.
  rewrite fmap_app in Hnd. apply NoDup_app in Hnd as (_ & Hnot & _).
  intros Hin. apply (Hnot _ Hin). cbn. apply list_elem_of_here.
Qed.

(** With distinct names, the listeners of a name are those of any record of
    that name. *)
Lemma listeners_elem (r : recordList) (rec : record) :
  NoDup (names r) → rec ∈ r → listeners r (rec_name rec) = rec_list rec.
Proof.
  intros Hnd Hin. apply list_elem_of_lookup in Hin as [i Hi].
  unfold listeners. by rewrite (find_lookup r i rec).
Qed.

Lemma listeners_absent (r : recordList) (n : string) :
  n ∉ names r → listeners r n = [].
Proof. intros Hn. apply find_None in Hn. unfold listeners. by rewrite Hn. Qed.

Lemma listeners_Permutation (r r' : recordList) (n : string) :
  NoDup (names r) → r ≡ₚ r' → listeners r n = listeners r' n.
Proof.
  intros Hnd Hperm.
  assert (Hnd' : NoDup (names r')) by (unfold names in *; by rewrite <- Hperm).
  unfold listeners at 1. destruct (find r n) as [[i rec]|] eqn:Hf.
  - apply find_Some in Hf as (Hi & <- & _). symmetry. apply listeners_elem; [done|].
    rewrite <- Hperm. by eapply list_elem_of_lookup_2.
  - apply find_None in Hf. symmetry. apply listeners_absent.
    unfold names in *. by rewrite <- Hperm.
Qed.

Lemma listeners_insert_other (r : recordList) (idx : nat) (rec rec' : record) (n : string) :
  NoDup (names r) → r !! idx = Some rec → rec_name rec' = rec_name rec →
  n ≠ rec_name rec →
  listeners (<[idx := rec']> r) n = listeners r n.
Proof.
  intros Hnd Hidx Hname Hn.
  assert (Hnd' : NoDup (names (<[idx := rec']> r)))
    by (by rewrite (names_insert_same r idx rec rec')).
  unfold listeners at 2. destruct (find r n) as [[j rec0]|] eqn:Hf.
  - apply find_Some in Hf as (Hj & <- & _). apply listeners_elem; [done|].
    apply list_elem_of_lookup. exists j. rewrite list_lookup_insert_ne; [done|].
    intros ->. congruence.
  - apply find_None in Hf. apply listeners_absent.
    by rewrite (names_insert_same r idx rec rec').
Qed.

(** [Add] and [Remove] for one name leave the listeners of every other
    name as they are. *)
Lemma Add_Remove_frame (r : recordList) (ev : Event) (fn : Listener) (n : string) :
  reg_inv r → n ≠ Event_Name ev →
  listeners (snd (Add r ev fn)) n = listeners r n
  ∧ listeners (snd (Remove r ev fn)) n = listeners r n.
Proof.
  intros [Hnd Hne] Hn. destruct (find r (Event_Name ev)) as [[idx rec]|] eqn:Hf.
  - pose proof (find_Some _ _ _ _ Hf) as (Hidx & Hname & _). split.
    + rewrite (Add_existing _ _ _ _ _ Hf). cbn [snd].
      apply (listeners_insert_other r idx rec); [done | done | done | congruence].
    + destruct (Remove_found r ev fn idx rec Hnd Hf) as (_ & _ & Hnil).
      destruct (remove_listener (rec_list rec) fn) as [|x L'] eqn:HL.
      * destruct (Hnil eq_refl) as [_ Hperm].
        assert (Hnd' : NoDup (names (snd (Remove r ev fn)))).
        { apply (Remove_inv r ev fn). by split. }
        rewrite (listeners_Permutation _ _ n Hnd' Hperm).
        assert (Hndd : NoDup (names (delete idx r))).
        { unfold names. eapply sublist_NoDup; [exact Hnd|].
          apply fmap_sublist, sublist_delete. }
        unfold listeners at 2. destruct (find r n) as [[j rec0]|] eqn:Hf0.
        -- apply find_Some in Hf0 as (Hj & <- & _). apply listeners_elem; [done|].
           assert (Hin : rec0 ∈ rec :: delete idx r).
           { rewrite <- (delete_Permutation r idx rec Hidx).
             by eapply list_elem_of_lookup_2. }
           apply elem_of_cons in Hin as [->|Hin]; [congruence | done].
        -- apply find_None in Hf0. apply listeners_absent. intros Hin. apply Hf0.
           unfold names in *. eapply elem_of_sublist; [exact Hin|].
           apply fmap_sublist, sublist_delete.
      * clear Hnil. unfold Remove. rewrite Hf, HL. cbn [set_list rec_list length].
        destruct (Z.ltb_spec 0 (Z.of_nat (S (length L')))) as [_|?]; [|lia].
        cbn [snd]. apply (listeners_insert_other r idx rec); [done | done | done | congruence].
  - split.
    + rewrite (Add_new _ _ _ Hf). cbn [snd].
      set (new := {| rec_name := Event_Name ev; rec_ev := ev; rec_list := [fn] |}).
      assert (Hnd' : NoDup (names (r ++ [new]))).
      { pose proof (Add_inv r ev fn (conj Hnd Hne)) as [H _].
        by rewrite (Add_new _ _ _ Hf) in H. }
      unfold listeners at 2. destruct (find r n) as [[j rec0]|] eqn:Hf0.
      * apply find_Some in Hf0 as (Hj & <- & _). apply listeners_elem; [done|].
        apply elem_of_app. left. by eapply list_elem_of_lookup_2.
      * apply find_None in Hf0. apply listeners_absent. unfold names in *.
        rewrite fmap_app, elem_of_app. intros [Hin|Hin]; [done|].
        cbn in Hin. apply list_elem_of_singleton in Hin. done.
    + by rewrite (Remove_absent _ _ _ Hf).
Qed.

(** X12: on every state reached from a new emitter, [Subscribe] and
    [Unsubscribe] for an event leave the listeners of every other name, and
    of the same name in the registry of the other type, as they are, also
    when [Unsubscribe] deletes a record and moves the last record into its
    place. *)
Theorem Subscribe_Unsubscribe_other_names (ops : list op) (ev : Event) (l : Listener)
    (k : EventType) (n : string) :
  k ≠ Event_Type ev ∨ n ≠ Event_Name ev →
  let p := run ops in
  listeners (subs_get (subs (Subscribe p ev l)) k) n = listeners (subs_get (subs p) k) n
  ∧ listeners (subs_get (subs (Unsubscribe p ev l)) k) n
    = listeners (subs_get (subs p) k) n.
Proof.
  intros Hother p. rewrite Subscribe_subs, Unsubscribe_subs.
  destruct (decide (Event_Type ev = k)) as [<-|Hk].
  - rewrite !subs_get_set_same. destruct Hother as [?|Hn]; [done|].
    apply Add_Remove_frame; [apply run_inv | done].
  - by rewrite !subs_get_set_other.
Qed.

Lemma Subscribe_Unsubscribe_other_names_witness :
  let foo := {| fields := [String_ "foo"]; kind := PlainEvent |} in
  let bar := {| fields := [String_ "bar"]; kind := PlainEvent |} in
  let p := run [OpSubscribe foo 1%nat; OpSubscribe bar 2%nat] in
  listeners (plain (subs (Unsubscribe p foo 1%nat))) "bar" = [2%nat].
Proof.
  intros foo bar p.
  apply (Subscribe_Unsubscribe_other_names
           [OpSubscribe foo 1%nat; OpSubscribe bar 2%nat] foo 1%nat PlainEvent "bar").
  right. discriminate.
Defined.








(** * Further properties of the emitter *)

Lemma Add_Forall (P : record → Prop) (r : recordList) (ev : Event) (fn : Listener) :
  (∀ rec l, P rec → P (set_list rec l)) →
  P {| rec_name := Event_Name ev; rec_ev := ev; rec_list := [fn] |} →
  Forall P r → Forall P (snd (Add r ev fn)).
Proof.
  intros Hset Hnew Hr. unfold Add.
  destruct (find r (Event_Name ev)) as [[idx rec]|] eqn:Hf; cbn [snd].
  - apply find_Some in Hf as (Hidx & _ & _). apply Forall_insert; [done|].
    apply Hset. rewrite Forall_forall in Hr. apply Hr. by eapply list_elem_of_lookup_2.
  - apply Forall_app. split; [done | by repeat constructor].
Qed.

Lemma Remove_Forall (P : record → Prop) (r : recordList) (ev : Event) (fn : Listener) :
  (∀ rec l, P rec → P (set_list rec l)) →
  Forall P r → Forall P (snd (Remove r ev fn)).
Proof.
  intros Hset Hr. unfold Remove.
  destruct (find r (Event_Name ev)) as [[idx rec]|] eqn:Hf; cbn [snd]; [|done].
  apply find_Some in Hf as (Hidx & _ & _).
  pose proof (lookup_lt_Some _ _ _ Hidx) as Hlt.
  assert (Hins : Forall P (<[idx := set_list rec (remove_listener (rec_list rec) fn)]> r)).
  { apply Forall_insert; [done|]. apply Hset. rewrite Forall_forall in Hr.
    apply Hr. by eapply list_elem_of_lookup_2. }
  destruct (0 <? _); cbn [snd]; [done|].
  apply cut_Forall; [by rewrite length_insert | done].
Qed.

Lemma step_named (p : PubsubEmitter) (o : op) :
  (∀ k, Forall (fun rec => rec_name rec = Event_Name (rec_ev rec)
                           ∧ Event_Type (rec_ev rec) = k) (subs_get (subs p) k)) →
  ∀ k, Forall (fun rec => rec_name rec = Event_Name (rec_ev rec)
                          ∧ Event_Type (rec_ev rec) = k) (subs_get (subs (step p o)) k).
Proof.
  intros Hp k. destruct o as [ev l|ev l| |m|]; cbn [step].
  - rewrite Subscribe_subs. destruct (decide (Event_Type ev = k)) as [<-|Hne].
    + rewrite subs_get_set_same. apply Add_Forall; [done | done | apply Hp].
    + rewrite subs_get_set_other by done. apply Hp.
  - rewrite Unsubscribe_subs. destruct (decide (Event_Type ev = k)) as [<-|Hne].
    + rewrite subs_get_set_same. apply Remove_Forall; [done | apply Hp].
    + rewrite subs_get_set_other by done. apply Hp.
  - rewrite resubscribe_eq. apply Hp.
  - destruct m; apply Hp.
  - unfold forward. destruct (send p); apply Hp.
Qed.

Lemma run_records_ok (ops : list op) (k : EventType) :
  Forall (rec_ok k) (subs_get (subs (run ops)) k).
Proof.
  assert (Hnamed : ∀ k', Forall (fun rec => rec_name rec = Event_Name (rec_ev rec)
                                            ∧ Event_Type (rec_ev rec) = k')
                                (subs_get (subs (run ops)) k')).
  { unfold run.
    assert (H0 : ∀ k', Forall (fun rec => rec_name rec = Event_Name (rec_ev rec)
                                          ∧ Event_Type (rec_ev rec) = k')
                              (subs_get (subs NewPubsubEmitter) k'))
      by (intros []; constructor).
    revert H0. generalize NewPubsubEmitter.
    induction ops as [|o ops IH]; intros p Hp; cbn [fold_left]; [done|].
    by apply IH, step_named. }
  destruct (run_inv ops k) as [_ Hne]. specialize (Hnamed k).
  rewrite Forall_forall in *. intros rec Hrec.
  destruct (Hnamed rec Hrec) as [Hn Hk]. split; [by apply Hne | by split].
Qed.

(** X15: on every state reached from a new emitter, every record of the
    registry of type [k] has at least one listener, is named after the event
    it stores, and stores an event of type [k]. *)
Theorem registry_records_ok (ops : list op) (k : EventType) :
  Forall (rec_ok k) (subs_get (subs (run ops)) k).
Proof. apply run_records_ok. Qed.



Lemma Subscribe_others (p : PubsubEmitter) (ev : Event) (l : Listener) :
  written (Subscribe p ev l) = written p ∧ calls (Subscribe p ev l) = calls p.
Proof.
  unfold Subscribe. destruct (Add _ ev l) as [count r]. by destruct (count =? 1).
Qed.

Lemma Unsubscribe_others (p : PubsubEmitter) (ev : Event) (l : Listener) :
  written (Unsubscribe p ev l) = written p ∧ calls (Unsubscribe p ev l) = calls p.
Proof.
  unfold Unsubscribe. destruct (Remove _ ev l) as [count r]. by destruct (count =? 0).
Qed.






Lemma forward_iter (cs : list command) (p : PubsubEmitter) :
  send p = cs →
  let q := Nat.iter (length cs) forward p in
  send q = [] ∧ written q = written p ++ cs
  ∧ subs q = subs p ∧ calls q = calls p
  ∧ forward q = q.
Proof.
  revert p. induction cs as [|c cs IH]; intros p Hcs; cbv zeta.
  - change (Nat.iter (length []) forward p) with p.
    unfold forward. rewrite Hcs. by rewrite app_nil_r.
  - cbn [length]. rewrite Nat.iter_succ_r.
    assert (Hstep : forward p
              = {| subs := subs p; send := cs; written := written p ++ [c];
                   calls := calls p |})
      by (unfold forward; by rewrite Hcs).
    rewrite Hstep.
    destruct (IH {| subs := subs p; send := cs; written := written p ++ [c];
                    calls := calls p |} eq_refl) as (H1 & H2 & H3 & H4 & H5).
    cbn [subs send written calls] in *.
    rewrite H1, H2, H3, H4, <- app_assoc. done.
Qed.

(** X18: the work loop passes the commands on in the order they were
    handed to [send]: taking as many commands as are pending empties [send]
    and appends its content, in order, to what was written; registries and
    calls are untouched, and with nothing pending the step does nothing. *)
Theorem forward_in_order (p : PubsubEmitter) :
  let q := Nat.iter (length (send p)) forward p in
  send q = [] ∧ written q = written p ++ send p
  ∧ subs q = subs p ∧ calls q = calls p
  ∧ forward q = q.
Proof. by apply forward_iter. Qed.

Lemma step_cmd_ok (p : PubsubEmitter) (o : op) :
  Forall cmd_ok (written p ++ send p) →
  Forall cmd_ok (written (step p o) ++ send (step p o)).
Proof.
  rewrite !Forall_app. intros [Hw Hs]. destruct o as [ev l|ev l| |m|]; cbn [step].
  - destruct (Subscribe_others p ev l) as [-> _]. rewrite Subscribe_send.
    split; [done|]. apply Forall_app. split; [done|].
    destruct (_ =? 1); [|done]. repeat constructor.
    exists (Event_Type ev), (Event_Name ev). by left.
  - destruct (Unsubscribe_others p ev l) as [-> _]. rewrite Unsubscribe_send.
    split; [done|]. apply Forall_app. split; [done|].
    destruct (_ =? 0); [|done]. repeat constructor.
    exists (Event_Type ev), (Event_Name ev). by right.
  - rewrite resubscribe_eq. cbn [written send]. split; [done|].
    unfold resubscribe_kind. apply Forall_app.
    split; apply Forall_fmap, Forall_forall; intros rec _; cbn.
    + exists PlainEvent, (rec_name rec). by left.
    + exists PatternEvent, (rec_name rec). by left.
  - by destruct m.
  - unfold forward. destruct (send p) as [|c rest] eqn:Hsend.
    { rewrite Hsend. by split. }
    cbn [written send]. apply Forall_cons in Hs as [Hc Hrest].
    split; [|done]. apply Forall_app. split; [done | by repeat constructor].
Qed.

(** X20: on every state reached from a new emitter, every command pending
    on [send] or passed on to the write pump is one of SUBSCRIBE,
    PSUBSCRIBE, UNSUBSCRIBE, PUNSUBSCRIBE with exactly one argument. *)
Theorem commands_well_formed (ops : list op) :
  Forall cmd_ok (written (run ops) ++ send (run ops)).
Proof.
  unfold run.
  assert (H0 : Forall cmd_ok (written NewPubsubEmitter ++ send NewPubsubEmitter))
    by constructor.
  revert H0. generalize NewPubsubEmitter.
  induction ops as [|o ops IH]; intros p Hp; cbn [fold_left]; [done|].
  by apply IH, step_cmd_ok.
Qed.

(** * The registry and the commands, record by record

    The statements of this part read the registry through [listeners_of]
    and [names], that is off the records themselves, and not through the
    registry's own [find]. *)

Lemma listeners_of_absent (r : recordList) (n : string) :
  n ∉ names r → listeners_of r n = [].
Proof.
  unfold listeners_of, names. induction r as [|rec r IH]; [done|].
  cbn [map]. rewrite not_elem_of_cons. intros [Hne Hin].
  rewrite filter_cons, decide_False by done. by apply IH.
Qed.

(** With distinct names the registry's lookup finds exactly the listeners
    the records hold under the name. *)
Lemma listeners_of_find (r : recordList) (n : string) :
  NoDup (names r) → listeners_of r n = listeners r n.
Proof.
  unfold listeners, find. generalize 0%nat.
  induction r as [|rec r IH]; intros i Hnd; [done|].
  cbn [names map] in Hnd. apply NoDup_cons in Hnd as [Hrec Hnd].
  cbn [find_from]. unfold listeners_of. rewrite filter_cons.
  destruct (String.eqb_spec (rec_name rec) n) as [<-|Hne].
  - rewrite decide_True by done. cbn [map concat].
    fold (listeners_of r (rec_name rec)).
    by rewrite (listeners_of_absent r _ Hrec), app_nil_r.
  - rewrite decide_False by done. by apply IH.
Qed.

Lemma names_listeners_of (r : recordList) (n : string) :
  reg_inv r → (n ∈ names r ↔ listeners_of r n ≠ []).
Proof.
  intros [Hnd Hne]. rewrite listeners_of_find by done. unfold listeners.
  destruct (find r n) as [[idx rec]|] eqn:Hf.
  - pose proof (find_Some _ _ _ _ Hf) as (Hidx & _ & _).
    assert (Hin : rec ∈ r) by (by eapply list_elem_of_lookup_2).
    split.
    + intros _. rewrite Forall_forall in Hne. by apply Hne.
    + intros _. apply holds_true. unfold holds. by rewrite Hf.
  - apply find_None in Hf. by split.
Qed.

(** Deleting the record at an index, with distinct names, is keeping the
    records of every other name. *)
Lemma delete_filter_name (r : recordList) (idx : nat) (rec : record) :
  NoDup (names r) → r !! idx = Some rec →
  delete idx r = filter (fun x => rec_name x ≠ rec_name rec) r.
Proof.
  intros Hnd Hidx. rewrite delete_take_drop.
  rewrite <- (take_drop_middle r idx rec Hidx) in Hnd |- * at 3.
  unfold names in Hnd. rewrite fmap_app, fmap_cons in Hnd.
  apply NoDup_app in Hnd as (_ & Hpre & Hpost).
  apply NoDup_cons in Hpost as [Hpost _].
  assert (Hall : ∀ l : list record, rec_name rec ∉ rec_name <$> l →
                 filter (fun x => rec_name x ≠ rec_name rec) l = l).
  { induction l as [|x l IH]; [done|]. rewrite fmap_cons, not_elem_of_cons.
    intros [Hx Hl]. rewrite filter_cons, decide_True by done. by rewrite IH. }
  rewrite filter_app, filter_cons, decide_False by (by intros ?).
  rewrite !Hall; [done | done |].
  intros Hin. apply (Hpre _ Hin). apply list_elem_of_here.
Qed.

Lemma Add_listeners_of (r : recordList) (ev : Event) (fn : Listener) (n : string) :
  reg_inv r →
  listeners_of (snd (Add r ev fn)) n
  = listeners_of r n ++ (if decide (n = Event_Name ev) then [fn] else []).
Proof.
  intros Hinv. pose proof (Add_inv r ev fn Hinv) as [Hnd' _]. destruct Hinv as [Hnd Hne].
  rewrite !listeners_of_find by done.
  destruct (decide (n = Event_Name ev)) as [->|Hn].
  - apply Add_listeners.
  - rewrite app_nil_r. by apply Add_Remove_frame.
Qed.

Lemma Remove_listeners_of (r : recordList) (ev : Event) (fn : Listener) (n : string) :
  reg_inv r →
  let before := listeners_of r n in
  let after := listeners_of (snd (Remove r ev fn)) n in
  if decide (n = Event_Name ev)
  then (if decide (fn ∈ before) then before ≡ₚ fn :: after else after = before)
  else after = before.
Proof.
  intros Hinv before after. unfold before, after.
  pose proof (Remove_inv r ev fn Hinv) as [Hnd' _]. destruct Hinv as [Hnd Hne].
  rewrite !listeners_of_find by done.
  destruct (decide (n = Event_Name ev)) as [->|Hn].
  - rewrite Remove_listeners by done.
    destruct (decide (fn ∈ listeners r (Event_Name ev))) as [Hin|Hin].
    + by apply remove_listener_elem.
    + by apply remove_listener_not_elem.
  - by apply Add_Remove_frame.
Qed.

Lemma Remove_count_of (r : recordList) (ev : Event) (fn : Listener) :
  reg_inv r →
  fst (Remove r ev fn)
  = Z.of_nat (length (listeners_of (snd (Remove r ev fn)) (Event_Name ev))).
Proof.
  intros Hinv. pose proof (Remove_inv r ev fn Hinv) as [Hnd' _]. destruct Hinv as [Hnd Hne].
  rewrite listeners_of_find by done. by apply Remove_count.
Qed.

(** C3: [Add] under a name without a record returns 1 and creates the
    record; [Add] returns the number of listeners registered under the name
    plus one, so a second [Add] returns the first result incremented, and it
    registers the listener under that name and changes no other name;
    [Remove] returns the number of listeners left under the name and
    changes no other name; [Remove] of the sole listener of a name returns
    0 and deletes exactly the record of that name, every other record
    staying in the registry, after which [Add] under that name again
    returns 1 and creates a record; [Remove] of a name without a record
    returns 0 and leaves the registry as it is. *)
Theorem recordList_Add_Remove (r : recordList) (ev : Event) (fn fn' : Listener) :
  reg_inv r →
  let n := Event_Name ev in
  (n ∉ names r →
     Add r ev fn = (1, r ++ [ {| rec_name := n; rec_ev := ev; rec_list := [fn] |} ])
     ∧ Remove r ev fn = (0, r))
  ∧ fst (Add r ev fn) = Z.of_nat (length (listeners_of r n)) + 1
  ∧ fst (Add (snd (Add r ev fn)) ev fn') = fst (Add r ev fn) + 1
  ∧ (∀ n', listeners_of (snd (Add r ev fn)) n'
           = listeners_of r n' ++ (if decide (n' = n) then [fn] else []))
  ∧ fst (Remove r ev fn) = Z.of_nat (length (listeners_of (snd (Remove r ev fn)) n))
  ∧ (∀ n', let before := listeners_of r n' in
           let after := listeners_of (snd (Remove r ev fn)) n' in
           if decide (n' = n)
           then (if decide (fn ∈ before) then before ≡ₚ fn :: after else after = before)
           else after = before)
  ∧ (listeners_of r n = [fn] →
     let r' := snd (Remove r ev fn) in
     fst (Remove r ev fn) = 0
     ∧ (n ∉ names r')
     ∧ r' ≡ₚ filter (fun rec => rec_name rec ≠ n) r
     ∧ Add r' ev fn'
       = (1, r' ++ [ {| rec_name := n; rec_ev := ev; rec_list := [fn'] |} ])).
Proof.
  intros Hinv n. pose proof Hinv as [Hnd Hne].
  destruct (Add_Remove_by_find r ev fn fn' Hinv) as (_ & _ & Htwice & _).
  split; [|split; [|split; [|split; [|split; [|split]]]]].
  - intros Hn. apply find_None in Hn. by rewrite Add_new, Remove_absent.
  - rewrite listeners_of_find by done. apply Add_count.
  - done.
  - intros n'. by apply Add_listeners_of.
  - by apply Remove_count_of.
  - intros n'. by apply Remove_listeners_of.
  - intros HL r'. rewrite listeners_of_find in HL by done. unfold listeners in HL.
    destruct (find r n) as [[idx rec]|] eqn:Hf; [|done].
    pose proof (find_Some _ _ _ _ Hf) as (Hidx & Hname & _).
    destruct (Remove_found r ev fn idx rec Hnd Hf) as (_ & Hcount & Hnil).
    assert (Hrm : remove_listener (rec_list rec) fn = []).
    { rewrite HL. unfold remove_listener. cbn [index_of]. by rewrite Nat.eqb_refl. }
    destruct (Hnil Hrm) as [Hgone Hperm]. rewrite Hrm in Hcount.
    apply holds_false in Hgone.
    split; [done | split; [by apply find_None | split]].
    + unfold r'. rewrite Hperm, (delete_filter_name r idx rec Hnd Hidx).
      by rewrite Hname.
    + by apply Add_new.
Qed.

Lemma recordList_Add_Remove_witness :
  let foo := {| fields := [String_ "foo"]; kind := PlainEvent |} in
  let bar := {| fields := [String_ "bar"]; kind := PlainEvent |} in
  let baz := {| fields := [String_ "baz"]; kind := PlainEvent |} in
  let rfoo := {| rec_name := "foo"; rec_ev := foo; rec_list := [1%nat] |} in
  let rbar := {| rec_name := "bar"; rec_ev := bar; rec_list := [7%nat; 8%nat] |} in
  let rbaz := {| rec_name := "baz"; rec_ev := baz; rec_list := [3%nat] |} in
  let r := [rfoo; rbar; rbaz] in
  fst (Remove r foo 1%nat) = 0
  ∧ ("foo" ∉ names (snd (Remove r foo 1%nat)))
  ∧ snd (Remove r foo 1%nat) ≡ₚ [rbar; rbaz]
  ∧ fst (Add r bar 9%nat) = 3
  ∧ listeners_of (snd (Add r bar 9%nat)) "baz" = [3%nat].
Proof.
  intros foo bar baz rfoo rbar rbaz r.
  assert (Hinv : reg_inv r).
  { split; [|by repeat constructor].
    apply (bool_decide_unpack _). by vm_compute. }
  destruct (recordList_Add_Remove r foo 1%nat 1%nat Hinv) as (_ & _ & _ & _ & _ & _ & H).
  destruct (H eq_refl) as (H0 & Hgone & Hperm & _).
  destruct (recordList_Add_Remove r bar 9%nat 9%nat Hinv) as (_ & Hcount & _ & Hadd & _).
  split; [exact H0 | split; [exact Hgone | split; [exact Hperm | split]]].
  - exact Hcount.
  - exact (Hadd "baz").
Defined.

(** C1: on every emitter state reached from a new emitter, with [count]
    the number of listeners the records of the event's registry hold under
    the event's name: [Subscribe] hands exactly one subscribe command (the
    verb of the event's type, its [Name()] as the only argument) to [send]
    when the name has no listener and none when it has some, and registers
    the listener under that name of that registry and nowhere else;
    [Unsubscribe] hands exactly one unsubscribe command to [send] when it
    leaves the name without a listener and none when listeners remain, and
    takes one registration of the listener, if there is one, from that name
    of that registry and changes nothing else. *)
Theorem Subscribe_Unsubscribe_commands (ops : list op) (ev : Event) (l : Listener) :
  let p := run ops in
  let reg q k := subs_get (subs q) k in
  let count q := length (listeners_of (reg q (Event_Type ev)) (Event_Name ev)) in
  let sub :=
    {| cmd_command := SubCommand (Event_Type ev); cmd_args := [Event_Name ev] |} in
  let unsub :=
    {| cmd_command := UnsubCommand (Event_Type ev); cmd_args := [Event_Name ev] |} in
  send (Subscribe p ev l)
  = send p ++ (if decide (count p = 0%nat) then [sub] else [])
  ∧ count (Subscribe p ev l) = S (count p)
  ∧ (∀ k n, listeners_of (reg (Subscribe p ev l) k) n
            = listeners_of (reg p k) n
              ++ (if decide (k = Event_Type ev ∧ n = Event_Name ev) then [l] else []))
  ∧ send (Unsubscribe p ev l)
    = send p ++ (if decide (count (Unsubscribe p ev l) = 0%nat) then [unsub] else [])
  ∧ count (Unsubscribe p ev l)
    = (count p
       - (if decide (l ∈ listeners_of (reg p (Event_Type ev)) (Event_Name ev))
          then 1 else 0))%nat
  ∧ (∀ k n, let before := listeners_of (reg p k) n in
            let after := listeners_of (reg (Unsubscribe p ev l) k) n in
            if decide (k = Event_Type ev ∧ n = Event_Name ev)
            then (if decide (l ∈ before) then before ≡ₚ l :: after else after = before)
            else after = before).
Proof.
  intros p reg count sub unsub.
  pose proof (run_inv ops) as Hinv. fold p in Hinv.
  assert (Hsubscribed : ∀ k n, listeners_of (reg (Subscribe p ev l) k) n
            = listeners_of (reg p k) n
              ++ (if decide (k = Event_Type ev ∧ n = Event_Name ev) then [l] else [])).
  { intros k n. unfold reg. rewrite Subscribe_subs.
    destruct (decide (k = Event_Type ev)) as [->|Hk].
    - rewrite subs_get_set_same, Add_listeners_of by apply Hinv.
      destruct (decide (n = Event_Name ev)) as [->|Hn].
      + by rewrite decide_True.
      + rewrite decide_False; [done | by intros [_ ?]].
    - rewrite subs_get_set_other by done.
      rewrite decide_False; [by rewrite app_nil_r | by intros [? _]]. }
  assert (Hunsubscribed : ∀ k n,
            let before := listeners_of (reg p k) n in
            let after := listeners_of (reg (Unsubscribe p ev l) k) n in
            if decide (k = Event_Type ev ∧ n = Event_Name ev)
            then (if decide (l ∈ before) then before ≡ₚ l :: after else after = before)
            else after = before).
  { intros k n. cbv zeta. unfold reg. rewrite Unsubscribe_subs.
    destruct (decide (k = Event_Type ev)) as [->|Hk].
    - rewrite subs_get_set_same.
      pose proof (Remove_listeners_of (subs_get (subs p) (Event_Type ev)) ev l n
                    (Hinv (Event_Type ev))) as Hrm.
      cbv zeta in Hrm. destruct (decide (n = Event_Name ev)) as [->|Hn].
      + by rewrite decide_True.
      + rewrite decide_False; [done | by intros [_ ?]].
    - rewrite subs_get_set_other by done.
      rewrite decide_False; [done | by intros [? _]]. }
  assert (Hfind : ∀ q, emitter_inv q →
            listeners_of (reg q (Event_Type ev)) (Event_Name ev)
            = listeners (subs_get (subs q) (Event_Type ev)) (Event_Name ev)).
  { intros q Hq. apply listeners_of_find, Hq. }
  destruct (Subscribe_Unsubscribe_by_find ops ev l) as (Hs1 & _ & Hu1 & _).
  fold p in Hs1, Hu1.
  split; [|split; [|split; [|split; [|split]]]].
  - unfold count. rewrite Hfind by done. exact Hs1.
  - unfold count. rewrite Hsubscribed, decide_True, length_app by done.
    cbn [length]. lia.
  - exact Hsubscribed.
  - unfold count. rewrite Hfind; [exact Hu1|].
    apply (step_subs_inv p (OpUnsubscribe ev l) Hinv).
  - unfold count. specialize (Hunsubscribed (Event_Type ev) (Event_Name ev)).
    cbv zeta in Hunsubscribed. rewrite decide_True in Hunsubscribed by done.
    destruct (decide (l ∈ listeners_of (reg p (Event_Type ev)) (Event_Name ev)))
      as [Hin|Hin].
    + rewrite Hunsubscribed. cbn [length]. lia.
    + rewrite Hunsubscribed. lia.
  - exact Hunsubscribed.
Qed.
